(** * pypose: spline interpolation and least-squares optimizers

    A shallow embedding of [pypose/function/spline.py] ([CSplineR3],
    [BSplineSE3]) and [pypose/optim/optimizer.py] ([GaussNewton],
    [LevenbergMarquardt]).

    Scalars are exact rationals ([Qc], canonical fractions with Leibniz
    equality); rounding of the floating-point tensors is outside the model.
    Python exceptions are the constructors of [PyError]. *)

From Stdlib Require Import QArith Qcanon Qround ZArith Lia String.
From stdpp Require Import base list numbers option.

Local Open Scope Qc_scope.

(** ** Exceptions and the error monad *)

Inductive PyError : Type :=
| AssertionError (msg : string)
| IndexError
| RuntimeError
| LinAlgError
| TypeError
| ValueError.

Inductive Result (A : Type) : Type :=
| Ok (a : A)
| Raise (e : PyError).
Arguments Ok {A} a.
Arguments Raise {A} e.

#[global] Instance Result_ret : MRet Result := fun A a => Ok a.
#[global] Instance Result_bind : MBind Result := fun A B f m =>
  match m with Ok a => f a | Raise e => Raise e end.
#[global] Instance Result_fmap : FMap Result := fun A B f m =>
  match m with Ok a => Ok (f a) | Raise e => Raise e end.

(** [assert cond, msg] *)
Definition py_assert (cond : bool) (msg : string) : Result unit :=
  if cond then Ok tt else Raise (AssertionError msg).

(** [l[i]] for a non-negative index [i]. *)
Definition index {A} (l : list A) (i : nat) : Result A :=
  match l !! i with Some a => Ok a | None => Raise IndexError end.

(** [l[-1]] *)
Definition index_last {A} (l : list A) : Result A :=
  match l !! (length l - 1)%nat with Some a => Ok a | None => Raise IndexError end.

(** [l[:-1]] *)
Definition py_init {A} (l : list A) : list A := take (length l - 1) l.

(** [[f(a) for a in l]] where [f] may raise: the first exception wins. *)
Fixpoint mapR {A B} (f : A -> Result B) (l : list A) : Result (list B) :=
  match l with
  | [] => Ok []
  | a :: r => b ← f a; bs ← mapR f r; Ok (b :: bs)
  end.

(** ** Vectors along the last tensor dimension *)

Definition vec := list Qc.

Definition vadd (u v : vec) : vec := zip_with Qcplus u v.
Definition vsub (u v : vec) : vec := zip_with Qcminus u v.
(** [c * v] and [v * c], a scalar broadcast along the last dimension *)
Definition smul (c : Qc) (v : vec) : vec := map (fun a => c * a) v.
Definition vmuls (v : vec) (c : Qc) : vec := map (fun a => a * c) v.
Definition vdivs (v : vec) (c : Qc) : vec := map (fun a => a / c) v.

Definition dot (u v : vec) : Qc := foldr Qcplus 0 (zip_with Qcmult u v).

(** [M @ v] for a matrix given by its rows *)
Definition matvec (M : list vec) (v : vec) : vec := map (fun row => dot row v) M.

(** [torch.arange(4)] and [t ** alpha]: the power basis [1, t, t^2, t^3];
    [0 ** 0 = 1] as in torch. *)
Definition alpha : list nat := seq 0 4.
Definition powers (t : Qc) : vec := map (fun a => Qcpower t a) alpha.

Definition Qc_of_nat (n : nat) : Qc := Qc_of_Z (Z.of_nat n).

(** [torch.arange(n)] *)
Definition arange_n (n : nat) : list Qc := map Qc_of_nat (seq 0 n).

(** [torch.arange(start, stop, step)]: [ceil((stop - start) / step)] values
    [start + i * step]; a zero step, or bounds inconsistent with the sign of
    the step, raise. *)
Definition arange (start stop step : Qc) : Result (list Qc) :=
  if bool_decide (step = 0) then Raise RuntimeError
  else if bool_decide ((stop - start) / step < 0) then Raise RuntimeError
  else
    let n := Z.to_nat (Qceiling ((stop - start) / step)%Qc) in
    Ok (map (fun i => start + Qc_of_nat i * step) (seq 0 n)).

(** [torch.searchsorted(sorted_sequence, v)] with the default [right=False]:
    the index [i] with [seq[i-1] < v <= seq[i]]. *)
Fixpoint searchsorted (sorted_sequence : list Qc) (v : Qc) : nat :=
  match sorted_sequence with
  | [] => 0%nat
  | a :: r => if bool_decide (a < v) then S (searchsorted r v) else 0%nat
  end.

(** ** Cubic Hermite spline in R3 *)

Module CSpline.

(** A tensor of shape [[batch_size, num_p, _]]. *)
Record Points := {
  batch_size : nat;
  num_p : nat;
  rows : list (list vec)
}.

Definition wf_points (points : Points) : Prop :=
  length (rows points) = batch_size points /\
  Forall (fun row => length row = num_p points) (rows points).

(** The Hermite coefficient matrix [A]. *)
Definition A : list vec :=
  [ [Qc_of_Z 1; Qc_of_Z 0; Qc_of_Z (-3); Qc_of_Z 2];
    [Qc_of_Z 0; Qc_of_Z 1; Qc_of_Z (-2); Qc_of_Z 1];
    [Qc_of_Z 0; Qc_of_Z 0; Qc_of_Z 3; Qc_of_Z (-2)];
    [Qc_of_Z 0; Qc_of_Z 0; Qc_of_Z (-1); Qc_of_Z 1] ].

(** The tangents [m] of one batch row:
    [m = points[1:] - points[:-1]; m /= (x[1:] - x[:-1]);
     m = cat([m[[0]], (m[1:] + m[:-1]) / 2, m[[-1]]])]. *)
Definition tangents (row : list vec) (x : list Qc) : Result (list vec) :=
  let m := zip_with vsub (drop 1 row) (py_init row) in
  let m := zip_with vdivs m (zip_with Qcminus (drop 1 x) (py_init x)) in
  m_first ← index m 0;
  m_last ← index_last m;
  Ok ([m_first]
        ++ map (fun v => vdivs v (Qc_of_Z 2)) (zip_with vadd (drop 1 m) (py_init m))
        ++ [m_last]).

(** One interpolated point: batch row [row] with tangents [m], breakpoints
    [x], query time [xq] found in segment [idx]:
    [dx = x[idx + 1] - x[idx]; t = (xq - x[idx]) / dx; hh = A @ t ** alpha]
    and the four Hermite terms, added in the order of the source. *)
Definition interpoint (row m : list vec) (x : list Qc) (xq : Qc) (idx : nat)
  : Result vec :=
  x_hi ← index x (idx + 1);
  x_lo ← index x idx;
  let dx := x_hi - x_lo in
  let t := (xq - x_lo) / dx in
  let hh := matvec A (powers t) in
  p_lo ← index row idx;
  let interpoints := smul (nth 0 hh 0) p_lo in
  m_lo ← index m idx;
  let interpoints := vadd interpoints (vmuls (smul (nth 1 hh 0) m_lo) dx) in
  p_hi ← index row (idx + 1);
  let interpoints := vadd interpoints (smul (nth 2 hh 0) p_hi) in
  m_hi ← index m (idx + 1);
  let interpoints := vadd interpoints (vmuls (smul (nth 3 hh 0) m_hi) dx) in
  Ok interpoints.

Definition CSplineR3 (points : Points) (steps : Qc) : Result (list (list vec)) :=
  xs_row ← arange 0 (Qc_of_Z (Z.of_nat (num_p points) - 1) + steps) steps;
  let xs := replicate (batch_size points) xs_row in
  let x_row := arange_n (num_p points) in
  let x := replicate (batch_size points) x_row in
  m ← mapR (fun '(row, xb) => tangents row xb) (zip (rows points) x);
  x0 ← index x 0;
  xs0 ← index xs 0;
  let idxs := map (searchsorted (drop 1 x0)) xs0 in
  mapR (fun '(row, mb, xb, xsb) =>
          mapR (fun '(xq, idx) => interpoint row mb xb xq idx) (zip xsb idxs))
       (zip (zip (zip (rows points) m) x) xs).

End CSpline.

(** ** Cumulative B-spline in SE(3) *)

Module BSpline.

(** An SE(3) element: translation and quaternion, the 7 coordinates of the
    last tensor dimension. *)
Record Pose := {
  tx : Qc; ty : Qc; tz : Qc;
  qx : Qc; qy : Qc; qz : Qc; qw : Qc
}.

(** A LieTensor of shape [[batch_size, point_num, 7]]. *)
Record Poses := {
  batch_size : nat;
  point_num : nat;
  rows : list (list Pose)
}.

Definition wf_poses (input_poses : Poses) : Prop :=
  length (rows input_poses) = batch_size input_poses /\
  Forall (fun row => length row = point_num input_poses) (rows input_poses).

(** The time tensor, of rank 3 as documented; [values] holds its elements
    in row-major order, so that [time[0, 0, k]] is [values !! k] when the
    two leading dimensions are 1. *)
Record Time := {
  shape0 : nat;
  shape1 : nat;
  shape2 : nat;
  values : list Qc
}.

Definition wf_time (time : Time) : Prop :=
  length (values time) = (shape0 time * shape1 time * shape2 time)%nat.

(** Modelled from the spec: [is_SE3], imported from the package and absent
    from the sources at hand. The spec (data model, Control Pose) asks that
    every pose satisfy the manifold membership invariant, a quaternion part
    of unit norm, and has the Manifold Algebra check it. *)
Definition unit_quaternion (p : Pose) : bool :=
  bool_decide (qx p * qx p + qy p * qy p + qz p * qz p + qw p * qw p = 1).

Definition is_SE3 (input_poses : Poses) : bool :=
  forallb (forallb unit_quaternion) (rows input_poses).

(** The cumulative basis matrix [B = tensor(...) / 6]. *)
Definition B : list vec :=
  map (map (fun c => Qc_of_Z c / Qc_of_Z 6))
      [ [5; 3; -3; 1]; [1; 3; 3; -2]; [0; 0; 0; 1] ]%Z.

(** [input_poses[..., [i], :]] on rows of length [n] *)
Definition select {A} (n : nat) (rows : list (list A)) (i : nat) : Result (list A) :=
  if bool_decide (i < n)%nat then mapR (fun row => index row i) rows
  else Raise IndexError.

(** [torch.stack(tensors, dim=1)]: an empty list of tensors is refused. *)
Definition stack {A} (tensors : list A) : Result (list A) :=
  match tensors with [] => Raise RuntimeError | _ => Ok tensors end.

Section manifold.
(** The Lie group operations of the LieTensor: [.Inv()], [*], [.Log()]
    and [.Exp()]. *)
Variable Inv : Pose -> Pose.
Variable Mul : Pose -> Pose -> Pose.
Variable Log : Pose -> vec.
Variable Exp : vec -> Pose.

(** [((P[a].Inv() * P[b]).Log() * w).Exp()] for one window and one time *)
Definition increment (window : list Pose) (a b : nat) (w : Qc) : Result Pose :=
  Pa ← index window a;
  Pb ← index window b;
  Ok (Exp (vmuls (Log (Mul (Inv Pa) Pb)) w)).

(** One batch row: the windows [padded[i:i+4]] for [i in range(posesSize - 3)],
    [T_delta = padded[0:-3]] repeated along the time axis, and the product
    [T_delta * A0 * A1 * A2], indexed [window][time]. *)
Definition interPoses_row (posesSize : nat) (w0 w1 w2 : list Qc) (padded : list Pose)
  : Result (list (list Pose)) :=
  posesTensor ← stack (map (fun i => take 4 (drop i padded)) (seq 0 (posesSize - 3)));
  let T_delta := take (posesSize - 3) padded in
  mapR (fun '(window, T) =>
          mapR (fun '(w0k, w1k, w2k) =>
                  A0 ← increment window 0 1 w0k;
                  A1 ← increment window 1 2 w1k;
                  A2 ← increment window 2 3 w2k;
                  Ok (Mul (Mul (Mul T A0) A1) A2))
               (zip (zip w0 w1) w2))
       (zip posesTensor T_delta).

Definition BSplineSE3 (input_poses : Poses) (time : Time) : Result (list (list Pose)) :=
  _ ← py_assert (is_SE3 input_poses) "The input poses are not SE3Type.";
  _ ← py_assert (bool_decide (shape0 time = 1%nat /\ shape1 time = 1%nat))
                "The time has wrong shape.";
  first ← select (point_num input_poses) (rows input_poses) 0;
  last ← select (point_num input_poses) (rows input_poses) (point_num input_poses - 1);
  let padded :=
    zip_with (fun row l => row ++ [l])
             (zip_with (fun f row => [f] ++ row) first (rows input_poses)) last in
  let timeSize := shape2 time in
  let posesSize := (point_num input_poses + 2)%nat in
  let w := map (fun u => matvec B (powers u)) (values time) in
  let w0 := map (fun wk => nth 0 wk 0) w in
  let w1 := map (fun wk => nth 1 wk 0) w in
  let w2 := map (fun wk => nth 2 wk 0) w in
  prod ← mapR (interPoses_row posesSize w0 w1 w2) padded;
  let interPosesSize := (timeSize * (posesSize - 3))%nat in
  (* reshape((-1, interPosesSize, 7)): torch infers the leading dimension as
     numel / (interPosesSize * 7) and refuses when that product is zero
     ("the unspecified dimension size -1 can be any value and is ambiguous") *)
  if bool_decide (interPosesSize = 0%nat) then Raise RuntimeError
  else Ok (map (@concat Pose) prod).
End manifold.

End BSpline.

(** ** Gauss-Newton and Levenberg-Marquardt *)

Module Optim.

(** A parameter tensor of the model: [p.shape], its elements in row-major
    order, and [p.requires_grad]. *)
Record Param := {
  shape : list nat;
  data : list Qc;
  requires_grad : bool
}.

(** [p.numel()] *)
Definition numel (p : Param) : nat := foldr Nat.mul 1%nat (shape p).

(** The parameter tensors of the model, in the order of
    [model.parameters()]. The optimizer's parameter groups refer to these
    same tensors: a reference is an index into the store. *)
Definition Store := list Param.

Definition wf_store (s : Store) : Prop :=
  Forall (fun p => length (data p) = numel p) s.

(** A 2-D tensor. *)
Record Matrix := {
  nrows : nat;
  ncols : nat;
  entry : nat -> nat -> Qc
}.

(** [M.T] *)
Definition transpose (M : Matrix) : Matrix :=
  {| nrows := ncols M; ncols := nrows M; entry := fun i j => entry M j i |}.

Definition sumn (n : nat) (f : nat -> Qc) : Qc :=
  foldr (fun k acc => f k + acc) 0 (seq 0 n).

(** [M @ N]: the inner dimensions have to agree. *)
Definition matmul (M N : Matrix) : Result Matrix :=
  if bool_decide (ncols M = nrows N) then
    Ok {| nrows := nrows M; ncols := ncols N;
          entry := fun i j => sumn (ncols M) (fun k => entry M i k * entry N k j) |}
  else Raise RuntimeError.

(** A flattened tensor as a column, [.view(-1, 1)], and back. *)
Definition column (E : list Qc) : Matrix :=
  {| nrows := length E; ncols := 1; entry := fun i _ => nth i E 0 |}.

Definition column0 (D : Matrix) : list Qc :=
  map (fun i => entry D i 0%nat) (seq 0 (nrows D)).

(** [M.diagonal()] *)
Definition diagonal (M : Matrix) : list Qc :=
  map (fun i => entry M i i) (seq 0 (Nat.min (nrows M) (ncols M))).

(** [x.clamp(min, max)] is [min(max(x, min), max)]. *)
Definition clamp (x min max : Qc) : Qc :=
  let y := if bool_decide (x < min) then min else x in
  if bool_decide (max < y) then max else y.

(** [M.diagonal().add_(d)] *)
Definition diagonal_add_ (M : Matrix) (d : list Qc) : Matrix :=
  {| nrows := nrows M; ncols := ncols M;
     entry := fun i j => if bool_decide (i = j) then entry M i j + nth i d 0
                         else entry M i j |}.

(** [torch.split(D, numels)] along the first dimension of a column: the
    sizes have to add up to the number of rows. *)
Fixpoint chunks (D : list Qc) (numels : list nat) : list (list Qc) :=
  match numels with
  | [] => []
  | n :: r => take n D :: chunks (drop n D) r
  end.

Definition split (D : list Qc) (numels : list nat) : Result (list (list Qc)) :=
  if bool_decide (foldr Nat.add 0%nat numels = length D) then Ok (chunks D numels)
  else Raise RuntimeError.

(** [torch.cat(tensors)] of columns: an empty list is refused. *)
Definition cat (tensors : list (list Qc)) : Result (list Qc) :=
  match tensors with [] => Raise RuntimeError | _ => Ok (concat tensors) end.

(** *** State and exceptions: the store survives a raise *)

Record M (A : Type) : Type := Stateful { run : Store -> Store * Result A }.
Arguments Stateful {A} run.
Arguments run {A} m s.

#[global] Instance M_ret : MRet M := fun A a => Stateful (fun s => (s, Ok a)).
#[global] Instance M_bind : MBind M := fun A B f m =>
  Stateful (fun s =>
    match run m s with
    | (s', Ok a) => run (f a) s'
    | (s', Raise e) => (s', Raise e)
    end).

Definition get : M Store := Stateful (fun s => (s, Ok s)).
Definition lift {A} (r : Result A) : M A := Stateful (fun s => (s, r)).

(** [for a in l: body(a)] *)
Fixpoint for_ {A} (l : list A) (body : A -> M unit) : M unit :=
  match l with
  | [] => mret tt
  | a :: r => _ ← body a; for_ r body
  end.

(** The tensor behind a reference. *)
Definition deref (i : nat) : M Param :=
  s ← get; lift (index s i).

(** [p.add_(d.view(p.shape))] on the tensor behind reference [i]: the view
    needs as many elements as [p] has. *)
Definition add_ (i : nat) (d : list Qc) : M unit :=
  p ← deref i;
  if bool_decide (length d = numel p) then
    Stateful (fun s =>
      (<[i := {| shape := shape p; data := zip_with Qcplus (data p) d;
                 requires_grad := requires_grad p |}]> s, Ok tt))
  else lift (Raise RuntimeError).

(** [[p.numel() for p in params if p.requires_grad]] *)
Definition trainable_numels (params : list nat) : M (list nat) :=
  s ← get;
  ps ← lift (mapR (index s) params);
  mret (map numel (filter (fun p => requires_grad p = true) ps)).

(** [[p.add_(d.view(p.shape)) for p, d in zip(params, D) if p.requires_grad]] *)
Definition update (params : list nat) (D : list (list Qc)) : M unit :=
  for_ (zip params D) (fun '(i, d) =>
    p ← deref i;
    if requires_grad p then add_ i d else mret tt).

(** The outputs of a model, and the targets: a tensor or a tuple of
    tensors. *)
Inductive Value (Tensor : Type) : Type :=
| Single (t : Tensor)
| Tuple (ts : list Tensor).
Arguments Single {Tensor} t.
Arguments Tuple {Tensor} ts.

Section optimizer.
(** Tensors and LieTensors of outputs and targets, with the operations
    of the numeric backend on them: subtraction, the flattened elements
    of [.view(-1, 1)], and the iteration along the first dimension that
    [zip] performs on a tensor. *)
Variable Tensor : Type.
Variable tsub : Tensor -> Tensor -> Result Tensor.
Variable flat : Tensor -> list Qc.
Variable unbind : Tensor -> Result (list Tensor).

(** The model [self.model], reading its parameters from the store, and
    the Jacobian provider [modjac(self.model, inputs, flatten=True)]. *)
Variable Inputs : Type.
Variable model : Store -> Inputs -> Value Tensor.
Variable modjac : Store -> Inputs -> Matrix.

(** The linear solves of the backend and the square root of [.norm()]. *)
Variable pinverse : Matrix -> Matrix.
Variable cholesky : Matrix -> option Matrix.
Variable cholesky_solve : Matrix -> Matrix -> Matrix.
Variable sqrt : Qc -> Qc.

(** [E.norm()] *)
Definition norm (E : list Qc) : Qc := sqrt (foldr Qcplus 0 (map (fun e => e * e) E)).

(** [zip(targets, outputs)] iterates a tuple, or a tensor along its
    first dimension. *)
Definition iterate (targets : Value Tensor) : Result (list Tensor) :=
  match targets with
  | Tuple ts => Ok ts
  | Single t => unbind t
  end.

Definition _residual (inputs : Inputs) (targets : option (Value Tensor)) : M (list Qc) :=
  s ← get;
  let outputs := model s inputs in
  match targets with
  | Some targets =>
      match outputs with
      | Tuple os =>
          ts ← lift (iterate targets);
          cols ← lift (mapR (fun '(t, o) => flat <$> tsub t o) (zip ts os));
          lift (cat cols)
      | Single o =>
          match targets with
          | Single t => lift (flat <$> tsub t o)
          | Tuple _ => lift (Raise TypeError)
          end
      end
  | None =>
      match outputs with
      | Tuple os => lift (cat (map (fun o => map Qcopp (flat o)) os))
      | Single o => mret (map Qcopp (flat o))
      end
  end.

(** *** GaussNewton *)

(** [defaults={}]: a parameter group is its list of parameters. *)
Record GaussNewton := {
  gn_param_groups : list (list nat)
}.

(** [Optimizer.__init__(model.parameters(), defaults)] makes one group
    of all the parameters and refuses an empty list. *)
Definition GaussNewton_init : M GaussNewton :=
  s ← get;
  if bool_decide (length s = 0%nat) then lift (Raise ValueError)
  else mret {| gn_param_groups := [seq 0 (length s)] |}.

Definition GaussNewton_step (self : GaussNewton) (inputs : Inputs)
           (targets : option (Value Tensor)) : M Qc :=
  E ← _residual inputs targets;
  _ ← for_ (gn_param_groups self) (fun pg =>
        numels ← trainable_numels pg;
        s ← get;
        let J := modjac s inputs in
        JtJ ← lift (matmul (transpose J) J);
        JtE ← lift (matmul (transpose J) (column E));
        D ← lift (matmul (pinverse JtJ) JtE);
        D ← lift (split (column0 D) numels);
        update pg D);
  E' ← _residual inputs targets;
  mret (norm E').

(** *** LevenbergMarquardt *)

Record ParamGroup := {
  params : list nat;
  damping : Qc;
  min : Qc;
  max : Qc
}.

Record LevenbergMarquardt := {
  param_groups : list ParamGroup
}.

(** The message of the assertion is the [ValueError] built from the
    damping factor; its text keeps the constant part. *)
Definition LevenbergMarquardt_init (damping min max : Qc) : M LevenbergMarquardt :=
  _ ← lift (py_assert (bool_decide (0 < damping)) "Invalid damping factor");
  s ← get;
  if bool_decide (length s = 0%nat) then lift (Raise ValueError)
  else mret {| param_groups :=
                 [ {| params := seq 0 (length s);
                      damping := damping; min := min; max := max |} ] |}.

Definition LevenbergMarquardt_step (self : LevenbergMarquardt) (inputs : Inputs)
           (targets : option (Value Tensor)) : M Qc :=
  E ← _residual inputs targets;
  _ ← for_ (param_groups self) (fun pg =>
        numels ← trainable_numels (params pg);
        s ← get;
        let J := modjac s inputs in
        A ← lift (matmul (transpose J) J);
        let A := diagonal_add_ A
                   (map (fun a => damping pg * clamp a (min pg) (max pg)) (diagonal A)) in
        JtE ← lift (matmul (transpose J) (column E));
        L ← lift (match cholesky A with Some L => Ok L | None => Raise LinAlgError end);
        let D := cholesky_solve JtE L in
        D ← lift (split (column0 D) numels);
        update (params pg) D);
  E' ← _residual inputs targets;
  mret (norm E').
End optimizer.

End Optim.

(** ** The B-spline as the specification words it

    The padded control sequence, the cumulative blend weights
    [(1/6) M U(u)] and the pose [P0 A0 A1 A2] of one window. *)

Module BSplineSpec.

Definition padded {A} (row : list A) : list A :=
  take 1 row ++ row ++ drop (length row - 1) row.

Definition M : list vec :=
  map (map Qc_of_Z) [ [5; 3; -3; 1]; [1; 3; 3; -2]; [0; 0; 0; 1] ]%Z.

Definition U (u : Qc) : vec := [1; u; u * u; u * u * u].

Definition weights (u : Qc) : vec := smul (1 / Qc_of_Z 6) (matvec M (U u)).

Section manifold.
Variable Inv : BSpline.Pose -> BSpline.Pose.
Variable Mul : BSpline.Pose -> BSpline.Pose -> BSpline.Pose.
Variable Log : BSpline.Pose -> vec.
Variable Exp : vec -> BSpline.Pose.

(** [exp(w · log(Pa⁻¹ · Pb))] *)
Definition blend (w : Qc) (Pa Pb : BSpline.Pose) : BSpline.Pose :=
  Exp (smul w (Log (Mul (Inv Pa) Pb))).

Definition pose (P0 P1 P2 P3 : BSpline.Pose) (u : Qc) : BSpline.Pose :=
  let w := weights u in
  Mul (Mul (Mul P0 (blend (nth 0 w 0) P0 P1)) (blend (nth 1 w 0) P1 P2))
      (blend (nth 2 w 0) P2 P3).
End manifold.

End BSplineSpec.

(** ** The parameter update as the specification words it

    The update [δ] is split by the element counts of the learnable tensors,
    in their order in the model, and each slice is added to its own
    tensor; a tensor that is not learnable takes no slice. *)

Module OptimSpec.

Fixpoint add_slices (s : Optim.Store) (delta : list Qc) : Optim.Store :=
  match s with
  | [] => []
  | p :: r =>
      if Optim.requires_grad p then
        {| Optim.shape := Optim.shape p;
           Optim.data := zip_with Qcplus (Optim.data p) (take (Optim.numel p) delta);
           Optim.requires_grad := true |}
          :: add_slices r (drop (Optim.numel p) delta)
      else p :: add_slices r delta
  end.

(** The normal equations: [JᵀJ], [JᵀE], the Gauss-Newton update
    [pinv(JᵀJ) · JᵀE], and the Levenberg-Marquardt matrix [JᵀJ] with
    [damping · clamp(diag(JᵀJ), min, max)] added to its diagonal. *)
Definition gram (J : Optim.Matrix) : Optim.Matrix :=
  {| Optim.nrows := Optim.ncols J; Optim.ncols := Optim.ncols J;
     Optim.entry := fun i j =>
       Optim.sumn (Optim.nrows J) (fun k => Optim.entry J k i * Optim.entry J k j) |}.

Definition rhs (J : Optim.Matrix) (E : list Qc) : Optim.Matrix :=
  {| Optim.nrows := Optim.ncols J; Optim.ncols := 1;
     Optim.entry := fun i _ =>
       Optim.sumn (Optim.nrows J) (fun k => Optim.entry J k i * nth k E 0) |}.

Definition gn_delta (pinverse : Optim.Matrix -> Optim.Matrix)
    (J : Optim.Matrix) (E : list Qc) : list Qc :=
  map (fun i => Optim.sumn (Optim.ncols J)
                  (fun k => Optim.entry (pinverse (gram J)) i k
                            * Optim.entry (rhs J E) k 0%nat))
      (seq 0 (Optim.ncols J)).

(** The matrix that the Levenberg-Marquardt step factors, as the step
    builds it; [damped_entry] gives its entries. *)
Definition damped (J : Optim.Matrix) (damping min max : Qc) : Optim.Matrix :=
  Optim.diagonal_add_ (gram J)
    (map (fun a => damping * Optim.clamp a min max) (Optim.diagonal (gram J))).

Definition damped_entry (J : Optim.Matrix) (damping min max : Qc) (i j : nat) : Qc :=
  if bool_decide (i = j) then
    Optim.entry (gram J) i i + damping * Optim.clamp (Optim.entry (gram J) i i) min max
  else Optim.entry (gram J) i j.

End OptimSpec.

(** ** Concrete instances

    Inputs on which the definitions above are evaluated: poses that are
    pure translations, where the group operations are rational, and linear
    models with the linear solves of diagonal systems. *)

Module Examples.

Definition q (a : Z) (b : positive) : Qc := Q2Qc (a # b).

(** *** Splines *)




Import BSpline.

Definition translation (x y z : Qc) : Pose :=
  {| tx := x; ty := y; tz := z; qx := 0; qy := 0; qz := 0; qw := 1 |}.

(** SE(3) restricted to the translations. *)
Definition Inv_t (p : Pose) : Pose := translation (- tx p) (- ty p) (- tz p).
Definition Mul_t (p r : Pose) : Pose :=
  translation (tx p + tx r) (ty p + ty r) (tz p + tz r).
Definition Log_t (p : Pose) : vec := [tx p; ty p; tz p; 0; 0; 0].
Definition Exp_t (v : vec) : Pose := translation (nth 0 v 0) (nth 1 v 0) (nth 2 v 0).

Definition is_translation (p : Pose) : Prop :=
  qx p = 0 /\ qy p = 0 /\ qz p = 0 /\ qw p = 1.

Definition no_pose : Poses :=
  {| batch_size := 1; point_num := 0; rows := [[]] |}.
Definition two_poses : Poses :=
  {| batch_size := 1; point_num := 2;
     rows := [[translation 0 0 0; translation 1 0 0]] |}.
(** a quaternion of norm 2 *)
Definition stretched : Poses :=
  {| batch_size := 1; point_num := 2;
     rows := [[translation 0 0 0;
               {| tx := 1; ty := 0; tz := 0; qx := 0; qy := 0; qz := 0; qw := q 2 1 |}]] |}.

Definition three_poses : Poses :=
  {| batch_size := 1; point_num := 3;
     rows := [[translation 0 0 0; translation 1 0 0; translation (q 3 1) 1 0]] |}.
(** the same pose twice *)
Definition still_poses : Poses :=
  {| batch_size := 1; point_num := 2;
     rows := [[translation 1 (q 2 1) (q 3 1); translation 1 (q 2 1) (q 3 1)]] |}.

(** a batch of two rows of poses *)
Definition two_rows : Poses :=
  {| batch_size := 2; point_num := 3;
     rows := [ [translation 0 0 0; translation 1 0 0; translation (q 3 1) 1 0];
               [translation 1 1 1; translation 0 (q 2 1) 0; translation 0 0 (q 5 1)] ] |}.

Definition time_unit : Time :=
  {| shape0 := 1; shape1 := 1; shape2 := 3; values := [0; q 1 2; 1] |}.
Definition time_empty : Time :=
  {| shape0 := 1; shape1 := 1; shape2 := 0; values := [] |}.
Definition time_two : Time :=
  {| shape0 := 1; shape1 := 1; shape2 := 2; values := [0; q 1 2] |}.

(** *** Optimizers *)

Import Optim.

(** Outputs and targets as rank-1 tensors. *)
Definition Tensor := list Qc.
Definition tsub_same (t o : Tensor) : Result Tensor :=
  if bool_decide (length t = length o) then Ok (zip_with Qcminus t o)
  else Raise RuntimeError.
Definition flat_id (t : Tensor) : list Qc := t.
Definition unbind_1d (t : Tensor) : Result (list Tensor) := Ok (map (fun x => [x]) t).

(** The pseudo-inverse of a diagonal matrix inverts its non-zero entries
    ([/ 0 = 0] in [Qc]). *)
Definition pinverse_diag (A : Matrix) : Matrix :=
  {| nrows := ncols A; ncols := nrows A;
     entry := fun i j => if bool_decide (i = j) then / entry A i i else 0 |}.

(** The square root of the square of a rational. *)
Definition rational_sqrt (x : Qc) : Qc := Q2Qc (Z.sqrt (Qnum x) # Pos.sqrt (Qden x)).

(** The Cholesky factor of a positive diagonal matrix, and the solve
    against it. *)
Definition cholesky_diag (A : Matrix) : option Matrix :=
  if forallb (fun a => bool_decide (0 < a)) (diagonal A) then
    Some {| nrows := nrows A; ncols := ncols A;
            entry := fun i j => if bool_decide (i = j) then rational_sqrt (entry A i i)
                                else 0 |}
  else None.
Definition cholesky_solve_diag (b L : Matrix) : Matrix :=
  {| nrows := nrows b; ncols := ncols b;
     entry := fun i j => entry b i j / (entry L i i * entry L i i) |}.

Definition param (sh : list nat) (d : list Qc) (g : bool) : Param :=
  {| shape := sh; data := d; requires_grad := g |}.

(** The linear model whose output is its trainable parameters, [f(θ) = θ]. *)
Definition trainable (s : Store) : list Param :=
  filter (fun p => requires_grad p = true) s.
Definition model_id (s : Store) (_ : unit) : Value Tensor :=
  Single (concat (map data (trainable s))).

Definition identity (n : nat) : Matrix :=
  {| nrows := n; ncols := n;
     entry := fun i j => if bool_decide (i = j) then 1 else 0 |}.

(** Its Jacobian with respect to the trainable parameters: the identity. *)
Definition modjac_trainable (s : Store) (_ : unit) : Matrix :=
  identity (foldr Nat.add 0%nat (map numel (trainable s))).

(** Its Jacobian with respect to all the parameters: a zero column for
    every element of a frozen parameter. *)
Fixpoint trainable_columns (ps : list Param) (k : nat) : list nat :=
  match ps with
  | [] => []
  | p :: r =>
      (if requires_grad p then seq k (numel p) else [])
        ++ trainable_columns r (k + numel p)
  end.
Definition modjac_all (s : Store) (_ : unit) : Matrix :=
  let cols := trainable_columns s 0 in
  {| nrows := length cols; ncols := foldr Nat.add 0%nat (map numel s);
     entry := fun i j => if bool_decide (cols !! i = Some j) then 1 else 0 |}.

(** One trainable parameter of two elements. *)
Definition store_trainable : Store := [param [2%nat] [1; q 2 1] true].
(** A frozen parameter ahead of a trainable one. *)
Definition store_frozen_first : Store :=
  [param [1%nat] [q 7 1] false; param [1%nat] [0] true].
(** The same at the target [4]: the residual is zero. *)
Definition store_frozen_first_solved : Store :=
  [param [1%nat] [q 7 1] false; param [1%nat] [q 4 1] true].
(** A frozen parameter ahead of two trainable ones of different sizes. *)
Definition store_frozen_then_two : Store :=
  [param [1%nat] [q 7 1] false; param [2%nat] [1; q 2 1] true; param [1%nat] [q 3 1] true].

End Examples.

(** ** Notions used by the properties *)

(** The element count of a list of parameters. *)
Definition total_numel (ps : list Optim.Param) : nat :=
  foldr Nat.add 0%nat (map Optim.numel ps).

(** Frozen parameters are the same tensors in [s'] as in [s]; a
    computation keeps them when this holds of every run. *)
Definition frozen_kept (s s' : Optim.Store) : Prop :=
  forall i p, s !! i = Some p -> Optim.requires_grad p = false -> s' !! i = Some p.

Definition keeps_frozen {A} (m : Optim.M A) : Prop :=
  forall s, frozen_kept s (Optim.run m s).1.

(** A relation between the store before and after holds of a computation
    when it holds of every run, returning or raising. *)
Definition relates (R : Optim.Store -> Optim.Store -> Prop) {A} (m : Optim.M A) : Prop :=
  forall s, R s (fst (Optim.run m s)).

(** The layout of the parameters: their shapes and [requires_grad] flags,
    in order, and the agreement of every tensor's elements with its shape. *)
Definition same_layout (s s' : Optim.Store) : Prop :=
  map Optim.shape s' = map Optim.shape s /\
  map Optim.requires_grad s' = map Optim.requires_grad s /\
  (Optim.wf_store s -> Optim.wf_store s').

(** Coordinate [c] of point [k] of a polyline, [row[k, c]]. *)
Definition coord (row : list vec) (k c : nat) : Qc := nth c (nth k row []) 0.

(** The tensor at position [i] is the same in both stores. *)
Definition kept_at (i : nat) (s s' : Optim.Store) : Prop := s' !! i = s !! i.


(** The elements of all the parameters, in order: the vector θ. *)
Definition flat_params (s : Optim.Store) : list Qc := concat (map Optim.data s).

(** Decidable equality of results, to compare evaluations. *)
#[local] Instance string_eq_dec : EqDecision string := String.string_dec.
#[local] Instance PyError_eq_dec : EqDecision PyError.
Proof. solve_decision. Defined.
#[local] Instance Result_eq_dec {A} `{EqDecision A} : EqDecision (Result A).
Proof. solve_decision. Defined.
#[local] Instance Param_eq_dec : EqDecision Optim.Param.
Proof. solve_decision. Defined.

(** * Properties *)

(** ** Lists, indices and rationals *)

Ltac qc_decide := apply (bool_decide_unpack _); vm_compute; exact I.

Lemma Qc_of_nat_lt (a b : nat) : Qc_of_nat a < Qc_of_nat b <-> (a < b)%nat.
Proof. unfold Qc_of_nat. rewrite <- Z2Qc_inj_lt. lia. Qed.

Lemma Qc_of_nat_S (n : nat) : Qc_of_nat (S n) = Qc_of_nat n + 1.
Proof.
  unfold Qc_of_nat. rewrite Nat2Z.inj_succ, <- Z.add_1_r, Z2Qc_inj_add, Z2Qc_inj_1. done.
Qed.

Lemma searchsorted_seq (a n k : nat) :
  searchsorted (map Qc_of_nat (seq a n)) (Qc_of_nat k) = (n `min` (k - a))%nat.
Proof.
  revert a. induction n as [|n IH]; intros a; simpl; [done|].
  case_bool_decide as H.
  - apply Qc_of_nat_lt in H. rewrite IH. destruct (k - a)%nat eqn:E; lia.
  - rewrite Qc_of_nat_lt in H. destruct (k - a)%nat eqn:E; lia.
Qed.

Lemma drop_arange_n (n : nat) : drop 1 (arange_n n) = map Qc_of_nat (seq 1 (n - 1)).
Proof. unfold arange_n. destruct n; simpl; [done|]. by rewrite Nat.sub_0_r, drop_0. Qed.

Lemma arange_n_lookup (n i : nat) : (i < n)%nat -> arange_n n !! i = Some (Qc_of_nat i).
Proof.
  intros H. unfold arange_n. rewrite list_lookup_fmap, lookup_seq_lt by done. done.
Qed.
Lemma length_arange_n n : length (arange_n n) = n.
Proof. unfold arange_n. by rewrite length_map, length_seq. Qed.

Lemma index_Some {A} (l : list A) i a : l !! i = Some a -> index l i = Ok a.
Proof. unfold index. by intros ->. Qed.

Lemma index_lt {A} (l : list A) i : (i < length l)%nat -> exists a, l !! i = Some a /\ index l i = Ok a.
Proof. intros [a Ha]%lookup_lt_is_Some. exists a. split; [done|by apply index_Some]. Qed.

Lemma index_last_lt {A} (l : list A) :
  (0 < length l)%nat -> exists a, l !! (length l - 1)%nat = Some a /\ index_last l = Ok a.
Proof.
  intros H. destruct (lookup_lt_is_Some_2 l (length l - 1)) as [a Ha]; [lia|].
  exists a. split; [done|]. unfold index_last. by rewrite Ha.
Qed.

Lemma length_py_init {A} (l : list A) : length (py_init l) = (length l - 1)%nat.
Proof. unfold py_init. rewrite length_take. lia. Qed.

Section vectors.
Variable D : nat.
Abbreviation dimD := (fun v : vec => length v = D).

Lemma length_vadd u v : dimD u -> dimD v -> dimD (vadd u v).
Proof. unfold vadd. intros. rewrite length_zip_with. lia. Qed.
Lemma length_vsub u v : dimD u -> dimD v -> dimD (vsub u v).
Proof. unfold vsub. intros. rewrite length_zip_with. lia. Qed.
Lemma length_vdivs v c : dimD v -> dimD (vdivs v c).
Proof. unfold vdivs. intros. by rewrite length_map. Qed.

Lemma Forall_map_dim (g : vec -> vec) l :
  (forall v, dimD v -> dimD (g v)) -> Forall dimD l -> Forall dimD (map g l).
Proof. intros Hg. induction 1; simpl; constructor; auto. Qed.

Lemma Forall_zip_with_dim {A B} (f : A -> B -> vec) (P : A -> Prop) (Q : B -> Prop) l k :
  (forall a b, P a -> Q b -> dimD (f a b)) ->
  Forall P l -> Forall Q k -> Forall dimD (zip_with f l k).
Proof.
  intros Hf Hl. revert k. induction Hl; intros k Hk; destruct Hk; simpl; constructor; auto.
Qed.
End vectors.


Lemma tangents_Ok (row : list vec) (N D : nat) :
  length row = N -> (2 <= N)%nat -> Forall (fun v : vec => length v = D) row ->
  exists m, CSpline.tangents row (arange_n N) = Ok m /\ length m = N /\
            Forall (fun v : vec => length v = D) m.
Proof.
  intros Hlen HN Hdim. unfold CSpline.tangents.
  set (m1 := zip_with vdivs _ _).
  assert (Hm1 : length m1 = (N - 1)%nat).
  { unfold m1. rewrite !length_zip_with, !length_drop, !length_py_init, length_arange_n. lia. }
  assert (Hd1 : Forall (fun v : vec => length v = D) m1).
  { unfold m1. apply Forall_zip_with_dim with (P := fun v : vec => length v = D) (Q := fun _ => True).
    - intros. by apply length_vdivs.
    - apply Forall_zip_with_dim with (P := fun v : vec => length v = D) (Q := fun v : vec => length v = D).
      + intros. by apply length_vsub.
      + by apply Forall_drop.
      + by apply Forall_take.
    - by apply Forall_true. }
  destruct (index_lt m1 0) as (mf & Hmf & ->); [lia|].
  destruct (index_last_lt m1) as (ml & Hml & ->); [lia|].
  eexists. split; [reflexivity|]. split.
  - rewrite length_app, length_cons, length_app, length_map, length_zip_with, length_drop, length_py_init.
    simpl. lia.
  - apply Forall_app. split; [|apply Forall_app; split].
    + constructor; [|constructor]. exact (Forall_lookup_1 _ _ _ _ Hd1 Hmf).
    + apply Forall_map_dim; [intros; by apply length_vdivs|].
      apply Forall_zip_with_dim with (P := fun v : vec => length v = D) (Q := fun v : vec => length v = D).
      * intros. by apply length_vadd.
      * by apply Forall_drop.
      * by apply Forall_take.
    + constructor; [|constructor]. exact (Forall_lookup_1 _ _ _ _ Hd1 Hml).
Qed.







Lemma mapR_Ok_lookup {A B} (f : A -> Result B) (P : nat -> B -> Prop) (l : list A) :
  (forall i a, l !! i = Some a -> exists b, f a = Ok b /\ P i b) ->
  exists bs, mapR f l = Ok bs /\ length bs = length l /\
             forall i b, bs !! i = Some b -> P i b.
Proof.
  revert P. induction l as [|a l IH]; intros P H.
  - exists []. split; [done|split; [done|]]. intros i b Hb. by rewrite lookup_nil in Hb.
  - destruct (H 0%nat a eq_refl) as (b & Hb & HP).
    destruct (IH (fun i => P (S i))) as (bs & Hbs & Hlen & HPs).
    { intros i a' Ha'. exact (H (S i) a' Ha'). }
    exists (b :: bs). cbn [mapR]. rewrite Hb. cbn [mbind Result_bind]. rewrite Hbs.
    split; [done|split].
    + cbn. by rewrite Hlen.
    + intros [|i] b' Hb'; [by injection Hb' as <-|]. by apply HPs.
Qed.

Lemma mapR_Raise_head {A B} (f : A -> Result B) a l e :
  f a = Raise e -> mapR f (a :: l) = Raise e.
Proof. intros H. cbn [mapR]. by rewrite H. Qed.

(** ** The R3 spline at its control points *)

(** C4, as stated, fails: among three control points the query time 1 is an
    interior breakpoint, and the lookup finds it in segment 0, not in
    segment 1 that starts there. *)
Lemma searchsorted_interior_tie :
  searchsorted (drop 1 (arange_n 3)) (Qc_of_nat 1) = 0%nat /\
  searchsorted (drop 1 (arange_n 3)) (Qc_of_nat 1) <> 1%nat.
Proof. split; [|intros H; revert H]; vm_compute; congruence. Qed.

(** C4, amended: a query time on breakpoint [k] of [N >= 2] control points
    is found in segment [k - 1], the segment that ends there ([0] for
    [k = 0]); both ends of that segment exist, and for the final time
    [N - 1] it is the last segment [N - 2]. *)
Theorem searchsorted_breakpoint (N k : nat) :
  (2 <= N)%nat -> (k < N)%nat ->
  searchsorted (drop 1 (arange_n N)) (Qc_of_nat k) = (k - 1)%nat /\
  (searchsorted (drop 1 (arange_n N)) (Qc_of_nat k) + 1 < N)%nat /\
  searchsorted (drop 1 (arange_n N)) (Qc_of_nat (N - 1)) = (N - 2)%nat.
Proof.
  intros HN Hk. rewrite drop_arange_n, !searchsorted_seq. lia.
Qed.

Lemma searchsorted_breakpoint_witness :
  searchsorted (drop 1 (arange_n 4)) (Qc_of_nat 2) = 1%nat /\
  (searchsorted (drop 1 (arange_n 4)) (Qc_of_nat 2) + 1 < 4)%nat /\
  searchsorted (drop 1 (arange_n 4)) (Qc_of_nat (4 - 1)) = (4 - 2)%nat.
Proof. apply (searchsorted_breakpoint 4 2); lia. Defined.


(** *** The sampled spline *)












(** ** The SE(3) B-spline *)

Lemma select_Ok {A} (n : nat) (rows : list (list A)) (i : nat) :
  Forall (fun row => length row = n) rows -> (i < n)%nat ->
  exists col, BSpline.select n rows i = Ok col /\ length col = length rows /\
    forall b a, col !! b = Some a -> exists row, rows !! b = Some row /\ row !! i = Some a.
Proof.
  intros Hwf Hi. unfold BSpline.select. rewrite bool_decide_eq_true_2 by done.
  destruct (mapR_Ok_lookup (fun row : list A => index row i)
              (fun b a => exists row, rows !! b = Some row /\ row !! i = Some a) rows)
    as (col & Hcol & Hlen & Hc).
  - intros b row Hrow.
    destruct (index_lt row i) as (a & Ha & Hidx).
    { rewrite (Forall_lookup_1 _ _ _ _ Hwf Hrow). done. }
    exists a. split; [done|]. by exists row.
  - by exists col.
Qed.

Lemma lookup_concat_uniform {A} (K : nat) (ls : list (list A)) (i k : nat) (l : list A) (x : A) :
  Forall (fun l => length l = K) ls ->
  ls !! i = Some l -> l !! k = Some x -> concat ls !! (i * K + k)%nat = Some x.
Proof.
  intros Hu. revert i. induction Hu as [|l0 ls Hl0 Hu IH]; intros i Hi Hk; [done|].
  destruct i as [|i]; cbn [concat].
  - injection Hi as ->. rewrite lookup_app_l; [done|]. eapply lookup_lt_Some; eauto.
  - rewrite lookup_app_r by (rewrite Hl0; lia).
    replace (S i * K + k - length l0)%nat with (i * K + k)%nat by (rewrite Hl0; lia).
    by apply IH.
Qed.

Lemma length_concat_uniform {A} (K : nat) (ls : list (list A)) :
  Forall (fun l => length l = K) ls -> length (concat ls) = (length ls * K)%nat.
Proof.
  induction 1 as [|l ls Hl _ IH]; [done|]. cbn [concat]. rewrite length_app, IH, Hl. cbn. lia.
Qed.

(** The weights of the source are those of the specification. *)
Lemma weights_spec (u : Qc) (j : nat) :
  nth j (matvec BSpline.B (powers u)) 0 = nth j (BSplineSpec.weights u) 0.
Proof.
  destruct j as [|[|[|j]]]; [| | |by destruct j];
  cbn; rewrite ?Z2Qc_inj_opp, ?Z2Qc_inj_0, ?Z2Qc_inj_1; unfold Qcdiv; ring.
Qed.

Lemma vmuls_smul (v : vec) (c : Qc) : vmuls v c = smul c v.
Proof. unfold vmuls, smul. apply map_ext. intros a. apply Qcmult_comm. Qed.

Section bspline.
Variable Inv : BSpline.Pose -> BSpline.Pose.
Variable Mul : BSpline.Pose -> BSpline.Pose -> BSpline.Pose.
Variable Log : BSpline.Pose -> vec.
Variable Exp : vec -> BSpline.Pose.

Lemma increment_Ok (window : list BSpline.Pose) (a b : nat) (w : Qc) Pa Pb :
  window !! a = Some Pa -> window !! b = Some Pb ->
  BSpline.increment Inv Mul Log Exp window a b w = Ok (BSplineSpec.blend Inv Mul Log Exp w Pa Pb).
Proof.
  intros Ha Hb. unfold BSpline.increment, BSplineSpec.blend.
  rewrite (index_Some _ _ _ Ha), (index_Some _ _ _ Hb). cbn [mbind Result_bind].
  by rewrite vmuls_smul.
Qed.

Lemma lookup_window (prow : list BSpline.Pose) (i j : nat) :
  (j < 4)%nat -> take 4 (drop i prow) !! j = prow !! (i + j)%nat.
Proof. intros Hj. rewrite lookup_take_lt by done. by rewrite lookup_drop. Qed.

Lemma interPoses_row_Ok (N : nat) (us : list Qc) (prow : list BSpline.Pose) :
  (2 <= N)%nat -> length prow = (N + 2)%nat ->
  let w := map (fun u => matvec BSpline.B (powers u)) us in
  exists grid,
    BSpline.interPoses_row Inv Mul Log Exp (N + 2)
      (map (fun wk => nth 0 wk 0) w) (map (fun wk => nth 1 wk 0) w)
      (map (fun wk => nth 2 wk 0) w) prow = Ok grid /\
    length grid = (N - 1)%nat /\
    forall i g, grid !! i = Some g ->
      length g = length us /\
      forall k u P0 P1 P2 P3,
        us !! k = Some u -> prow !! i = Some P0 -> prow !! (i + 1)%nat = Some P1 ->
        prow !! (i + 2)%nat = Some P2 -> prow !! (i + 3)%nat = Some P3 ->
        g !! k = Some (BSplineSpec.pose Inv Mul Log Exp P0 P1 P2 P3 u).
Proof.
  intros HN Hlen w. unfold BSpline.interPoses_row.
  replace (N + 2 - 3)%nat with (S (N - 2)) by lia.
  cbn [seq map BSpline.stack mbind Result_bind].
  change (take 4 (drop 0 prow) :: map (fun i => take 4 (drop i prow)) (seq 1 (N - 2)))
    with (map (fun i => take 4 (drop i prow)) (seq 0 (S (N - 2)))).
  set (wins := map _ (seq 0 (S (N - 2)))).
  set (body := fun '(window, T) => mapR _ _).
  destruct (mapR_Ok_lookup body
    (fun i g => length g = length us /\
      forall k u P0 P1 P2 P3,
        us !! k = Some u -> prow !! i = Some P0 -> prow !! (i + 1)%nat = Some P1 ->
        prow !! (i + 2)%nat = Some P2 -> prow !! (i + 3)%nat = Some P3 ->
        g !! k = Some (BSplineSpec.pose Inv Mul Log Exp P0 P1 P2 P3 u))
    (zip wins (take (S (N - 2)) prow))) as (grid & Hgrid & Hglen & Hg).
  - intros i [window T] Hi.
    apply lookup_zip_with_Some in Hi as (window' & T' & [= <- <-] & Hwin & HT).
    unfold wins in Hwin. rewrite list_lookup_fmap in Hwin.
    destruct (seq 0 (S (N - 2)) !! i) as [i'|] eqn:Hseq; [|done].
    apply lookup_seq in Hseq as [-> Hi']. injection Hwin as <-. cbn [plus] in *.
    apply lookup_take_Some in HT as [HT _].
    destruct (lookup_lt_is_Some_2 prow (i + 1)) as [P1 HP1]; [lia|].
    destruct (lookup_lt_is_Some_2 prow (i + 2)) as [P2 HP2]; [lia|].
    destruct (lookup_lt_is_Some_2 prow (i + 3)) as [P3 HP3]; [lia|].
    unfold body.
    destruct (mapR_Ok_lookup
      (fun '(w0k, w1k, w2k) =>
         A0 ← BSpline.increment Inv Mul Log Exp (take 4 (drop i prow)) 0 1 w0k;
         A1 ← BSpline.increment Inv Mul Log Exp (take 4 (drop i prow)) 1 2 w1k;
         A2 ← BSpline.increment Inv Mul Log Exp (take 4 (drop i prow)) 2 3 w2k;
         Ok (Mul (Mul (Mul T A0) A1) A2))
      (fun k pose => forall u, us !! k = Some u ->
                     pose = BSplineSpec.pose Inv Mul Log Exp T P1 P2 P3 u)
      (zip (zip (map (fun wk => nth 0 wk 0) w) (map (fun wk => nth 1 wk 0) w))
           (map (fun wk => nth 2 wk 0) w))) as (g & Hgr & Hgl & Hgk).
    + intros k [[w0k w1k] w2k] Hk.
      apply lookup_zip_with_Some in Hk as (w01 & w2k' & [= <- <-] & Hk01 & Hk2).
      apply lookup_zip_with_Some in Hk01 as (w0k' & w1k' & [= <- <-] & Hk0 & Hk1).
      unfold w in Hk0, Hk1, Hk2. rewrite !list_lookup_fmap in Hk0, Hk1, Hk2.
      destruct (us !! k) as [u|] eqn:Hu; [|done].
      cbn in Hk0, Hk1, Hk2. injection Hk0 as <-. injection Hk1 as <-. injection Hk2 as <-.
      rewrite (increment_Ok _ 0 1 _ T P1), (increment_Ok _ 1 2 _ P1 P2),
        (increment_Ok _ 2 3 _ P2 P3);
        rewrite ?lookup_window by lia; rewrite ?Nat.add_0_r; try done.
      eexists. split; [reflexivity|]. intros u' [= <-].
      unfold BSplineSpec.pose. cbv zeta. by rewrite <- !weights_spec.
    + exists g. split; [done|]. split.
      * rewrite Hgl, !length_zip_with, !length_map. unfold w. rewrite length_map. lia.
      * intros k u P0 P1' P2' P3' Hu HP0 HP1' HP2' HP3'.
        assert (P0 = T) as -> by congruence.
        assert (P1' = P1) as -> by congruence.
        assert (P2' = P2) as -> by congruence.
        assert (P3' = P3) as -> by congruence.
        destruct (lookup_lt_is_Some_2 g k) as [pose Hpose].
        { rewrite Hgl, !length_zip_with, !length_map. unfold w. rewrite length_map.
          apply lookup_lt_Some in Hu. lia. }
        rewrite Hpose. f_equal. by apply (Hgk k).
  - exists grid. split; [done|]. split; [|done].
    rewrite Hglen, length_zip_with, length_take. unfold wins. rewrite length_map, length_seq. lia.
Qed.
End bspline.

Lemma take_1_lookup {A} (l : list A) (a : A) : l !! 0%nat = Some a -> take 1 l = [a].
Proof. destruct l; [done|]. intros [= ->]. cbn. by rewrite take_0. Qed.

Lemma drop_last_lookup {A} (l : list A) (a : A) :
  l !! (length l - 1)%nat = Some a -> drop (length l - 1) l = [a].
Proof.
  intros H. pose proof (lookup_lt_Some _ _ _ H) as Hlt.
  rewrite <- (take_drop (length l - 1) l) in H at 2.
  rewrite lookup_app_r in H by (rewrite length_take; lia).
  rewrite length_take in H. replace (length l - 1 - (length l - 1) `min` length l)%nat with 0%nat in H by lia.
  assert (Hd : length (drop (length l - 1) l) = 1%nat) by (rewrite length_drop; lia).
  destruct (drop (length l - 1) l) as [|x [|]]; try discriminate. by injection H as ->.
Qed.

Section bspline_theorems.
Variable Inv : BSpline.Pose -> BSpline.Pose.
Variable Mul : BSpline.Pose -> BSpline.Pose -> BSpline.Pose.
Variable Log : BSpline.Pose -> vec.
Variable Exp : vec -> BSpline.Pose.

(** C1, amended to a non-empty time sequence: for [N >= 2] unit-quaternion
    control poses per batch row and a time tensor of shape [[1, 1, K]] with
    [K >= 1], [BSplineSE3] returns one row per batch row; the padded row
    (first and last pose duplicated) has [N + 2] poses, the output row has
    [(N - 1) * K] poses, and the pose at position [i * K + k] is
    [P0 · exp(w0 ξ0) · exp(w1 ξ1) · exp(w2 ξ2)] for the window
    [(P0, P1, P2, P3)] that starts at [i] in the padded row and the blend
    weights of the [k]-th time. *)
Theorem BSplineSE3_spec (input_poses : BSpline.Poses) (time : BSpline.Time) :
  BSpline.wf_poses input_poses -> BSpline.wf_time time ->
  BSpline.is_SE3 input_poses = true ->
  BSpline.shape0 time = 1%nat -> BSpline.shape1 time = 1%nat ->
  (2 <= BSpline.point_num input_poses)%nat -> (1 <= BSpline.shape2 time)%nat ->
  exists out,
    BSpline.BSplineSE3 Inv Mul Log Exp input_poses time = Ok out /\
    length out = BSpline.batch_size input_poses /\
    forall b row, BSpline.rows input_poses !! b = Some row ->
      length (BSplineSpec.padded row) = (BSpline.point_num input_poses + 2)%nat /\
      exists orow, out !! b = Some orow /\
        length orow = ((BSpline.point_num input_poses - 1) * BSpline.shape2 time)%nat /\
        forall i k u P0 P1 P2 P3,
          BSpline.values time !! k = Some u ->
          BSplineSpec.padded row !! i = Some P0 ->
          BSplineSpec.padded row !! (i + 1)%nat = Some P1 ->
          BSplineSpec.padded row !! (i + 2)%nat = Some P2 ->
          BSplineSpec.padded row !! (i + 3)%nat = Some P3 ->
          orow !! (i * BSpline.shape2 time + k)%nat
            = Some (BSplineSpec.pose Inv Mul Log Exp P0 P1 P2 P3 u).
Proof.
  destruct input_poses as [B N rows]. destruct time as [s0 s1 K us].
  unfold BSpline.wf_poses, BSpline.wf_time.
  cbn [BSpline.rows BSpline.point_num BSpline.shape0
    BSpline.shape1 BSpline.shape2 BSpline.values BSpline.batch_size].
  intros [HB Hrows] Hus HSE3 -> -> HN HK.
  replace (1 * 1 * K)%nat with K in Hus by lia.
  unfold BSpline.BSplineSE3. cbn [BSpline.rows BSpline.point_num BSpline.shape0
    BSpline.shape1 BSpline.shape2 BSpline.values BSpline.batch_size].
  rewrite HSE3. cbn [py_assert mbind Result_bind].
  destruct (select_Ok N rows 0 Hrows) as (first & -> & Hfl & Hf); [lia|].
  destruct (select_Ok N rows (N - 1) Hrows) as (last & -> & Hll & Hl); [lia|].
  cbn [mbind Result_bind].
  set (paddedl := zip_with _ (zip_with _ first rows) last).
  assert (Hpad : forall b row, rows !! b = Some row ->
            paddedl !! b = Some (BSplineSpec.padded row) /\ length row = N).
  { intros b row Hrow.
    pose proof (Forall_lookup_1 _ _ _ _ Hrows Hrow) as Hrl. cbn in Hrl.
    destruct (lookup_lt_is_Some_2 first b) as [f Hfb].
    { rewrite Hfl. eapply lookup_lt_Some; eauto. }
    destruct (lookup_lt_is_Some_2 last b) as [l Hlb].
    { rewrite Hll. eapply lookup_lt_Some; eauto. }
    destruct (Hf b f Hfb) as (row1 & Hrow1 & Hf0).
    destruct (Hl b l Hlb) as (row2 & Hrow2 & Hl0).
    assert (row1 = row) as -> by congruence. assert (row2 = row) as -> by congruence.
    split; [|done]. unfold paddedl.
    rewrite lookup_zip_with, lookup_zip_with, Hfb, Hrow, Hlb. cbn.
    unfold BSplineSpec.padded. rewrite (take_1_lookup _ _ Hf0).
    rewrite <- Hrl in Hl0. rewrite (drop_last_lookup _ _ Hl0).
    reflexivity. }
  assert (Hpl : length paddedl = B).
  { unfold paddedl. rewrite !length_zip_with. lia. }
  set (w := map (fun u => matvec BSpline.B (powers u)) us).
  destruct (mapR_Ok_lookup
    (BSpline.interPoses_row Inv Mul Log Exp (N + 2)
       (map (fun wk => nth 0 wk 0) w) (map (fun wk => nth 1 wk 0) w)
       (map (fun wk => nth 2 wk 0) w))
    (fun b grid => forall row, rows !! b = Some row ->
       length grid = (N - 1)%nat /\
       forall i g, grid !! i = Some g ->
         length g = length us /\
         forall k u P0 P1 P2 P3,
           us !! k = Some u -> BSplineSpec.padded row !! i = Some P0 ->
           BSplineSpec.padded row !! (i + 1)%nat = Some P1 ->
           BSplineSpec.padded row !! (i + 2)%nat = Some P2 ->
           BSplineSpec.padded row !! (i + 3)%nat = Some P3 ->
           g !! k = Some (BSplineSpec.pose Inv Mul Log Exp P0 P1 P2 P3 u))
    paddedl) as (prod & -> & Hprodl & Hprod).
  { intros b prow Hprow.
    destruct (lookup_lt_is_Some_2 rows b) as [row Hrow].
    { rewrite HB, <- Hpl. eapply lookup_lt_Some; eauto. }
    destruct (Hpad b row Hrow) as [Hp Hrl].
    assert (prow = BSplineSpec.padded row) as -> by congruence.
    assert (Hplen : length (BSplineSpec.padded row) = (N + 2)%nat).
    { unfold BSplineSpec.padded. rewrite !length_app, length_take, length_drop. lia. }
    destruct (interPoses_row_Ok Inv Mul Log Exp N us _ HN Hplen) as (grid & Hgrid & Hgl & Hg).
    exists grid. split; [exact Hgrid|].
    intros row' Hrow'. assert (row' = row) as -> by congruence. done. }
  cbn [mbind Result_bind].
  rewrite bool_decide_eq_false_2 by (intros Hz; apply Nat.eq_mul_0 in Hz; lia).
  eexists. split; [reflexivity|]. split; [by rewrite length_map, Hprodl|].
  intros b row Hrow. destruct (Hpad b row Hrow) as [Hp Hrl].
  split. { unfold BSplineSpec.padded. rewrite !length_app, length_take, length_drop. lia. }
  destruct (lookup_lt_is_Some_2 prod b) as [grid Hgrid].
  { rewrite Hprodl. eapply lookup_lt_Some; eauto. }
  destruct (Hprod b grid Hgrid row Hrow) as [Hgl Hg].
  assert (Hu : Forall (fun g : list BSpline.Pose => length g = K) grid).
  { apply Forall_lookup_2. intros i g Hig. destruct (Hg i g Hig) as [-> _]. done. }
  exists (concat grid). split; [by rewrite list_lookup_fmap, Hgrid|].
  split; [by rewrite (length_concat_uniform K), Hgl|].
  intros i k u P0 P1 P2 P3 Hk H0 H1 H2 H3.
  assert (Hi : (i < N - 1)%nat).
  { apply lookup_lt_Some in H3. unfold BSplineSpec.padded in H3.
    rewrite !length_app, length_take, length_drop in H3. lia. }
  destruct (lookup_lt_is_Some_2 grid i) as [g Hig]; [lia|].
  destruct (Hg i g Hig) as [_ Hgk].
  apply (lookup_concat_uniform K grid i k g); [done|done|].
  by apply (Hgk k u P0 P1 P2 P3).
Qed.
End bspline_theorems.

(** ** Evaluations and failures of [BSplineSE3] *)

Lemma BSplineSE3_spec_witness :
  exists out,
    BSpline.BSplineSE3 Examples.Inv_t Examples.Mul_t Examples.Log_t Examples.Exp_t
      Examples.two_poses Examples.time_two = Ok out /\
    length out = 1%nat /\
    forall b row, BSpline.rows Examples.two_poses !! b = Some row ->
      length (BSplineSpec.padded row) = 4%nat /\
      exists orow, out !! b = Some orow /\
        length orow = 2%nat /\
        forall i k u P0 P1 P2 P3,
          BSpline.values Examples.time_two !! k = Some u ->
          BSplineSpec.padded row !! i = Some P0 ->
          BSplineSpec.padded row !! (i + 1)%nat = Some P1 ->
          BSplineSpec.padded row !! (i + 2)%nat = Some P2 ->
          BSplineSpec.padded row !! (i + 3)%nat = Some P3 ->
          orow !! (i * 2 + k)%nat
            = Some (BSplineSpec.pose Examples.Inv_t Examples.Mul_t Examples.Log_t
                      Examples.Exp_t P0 P1 P2 P3 u).
Proof.
  apply (BSplineSE3_spec Examples.Inv_t Examples.Mul_t Examples.Log_t Examples.Exp_t
           Examples.two_poses Examples.time_two).
  - split; [reflexivity|]. repeat constructor.
  - reflexivity.
  - vm_compute. reflexivity.
  - reflexivity.
  - reflexivity.
  - simpl. lia.
  - simpl. lia.
Defined.

(** C1, as stated, fails for an empty time sequence: two unit-quaternion
    poses and a time tensor of shape [[1, 1, 0]] do not give a result of
    shape [[1, 0, 7]], the final reshape raises. *)
Lemma BSplineSE3_empty_time :
  BSpline.wf_poses Examples.two_poses /\
  BSpline.is_SE3 Examples.two_poses = true /\
  (2 <= BSpline.point_num Examples.two_poses)%nat /\
  (BSpline.shape0 Examples.time_empty, BSpline.shape1 Examples.time_empty,
   BSpline.shape2 Examples.time_empty) = (1, 1, 0)%nat /\
  BSpline.BSplineSE3 Examples.Inv_t Examples.Mul_t Examples.Log_t Examples.Exp_t
    Examples.two_poses Examples.time_empty = Raise RuntimeError.
Proof.
  split; [split; [reflexivity|repeat constructor]|].
  split; [vm_compute; reflexivity|].
  split; [simpl; lia|].
  split; [reflexivity|]. vm_compute. reflexivity.
Qed.


Section bspline_errors.
Variable Inv : BSpline.Pose -> BSpline.Pose.
Variable Mul : BSpline.Pose -> BSpline.Pose -> BSpline.Pose.
Variable Log : BSpline.Pose -> vec.
Variable Exp : vec -> BSpline.Pose.


(** C7: a control pose whose quaternion is not of unit norm fails the first
    assertion of [BSplineSE3], whatever the time tensor. *)
Theorem BSplineSE3_rejects_non_unit (input_poses : BSpline.Poses) (time : BSpline.Time)
    (b : nat) (row : list BSpline.Pose) (p : BSpline.Pose) :
  BSpline.rows input_poses !! b = Some row -> In p row ->
  BSpline.qx p * BSpline.qx p + BSpline.qy p * BSpline.qy p
    + BSpline.qz p * BSpline.qz p + BSpline.qw p * BSpline.qw p <> 1 ->
  BSpline.BSplineSE3 Inv Mul Log Exp input_poses time
    = Raise (AssertionError "The input poses are not SE3Type.").
Proof.
  intros Hrow Hp Hq. unfold BSpline.BSplineSE3.
  assert (HSE3 : BSpline.is_SE3 input_poses = false).
  { apply not_true_is_false. unfold BSpline.is_SE3. intros H.
    rewrite forallb_forall in H.
    specialize (H row). rewrite forallb_forall in H.
    assert (Hu : BSpline.unit_quaternion p = true).
    { apply H; [|done]. apply list_elem_of_In. eapply list_elem_of_lookup_2; eauto. }
    unfold BSpline.unit_quaternion in Hu. apply bool_decide_eq_true_1 in Hu. done. }
  rewrite HSE3. reflexivity.
Qed.
End bspline_errors.


Lemma BSplineSE3_rejects_non_unit_witness :
  BSpline.BSplineSE3 Examples.Inv_t Examples.Mul_t Examples.Log_t Examples.Exp_t
    Examples.stretched Examples.time_two
  = Raise (AssertionError "The input poses are not SE3Type.").
Proof.
  apply (BSplineSE3_rejects_non_unit Examples.Inv_t Examples.Mul_t Examples.Log_t
           Examples.Exp_t Examples.stretched Examples.time_two 0
           [Examples.translation 0 0 0;
            {| BSpline.tx := 1; BSpline.ty := 0; BSpline.tz := 0; BSpline.qx := 0;
               BSpline.qy := 0; BSpline.qz := 0; BSpline.qw := Examples.q 2 1 |}]
           {| BSpline.tx := 1; BSpline.ty := 0; BSpline.tz := 0; BSpline.qx := 0;
               BSpline.qy := 0; BSpline.qz := 0; BSpline.qw := Examples.q 2 1 |}).
  - reflexivity.
  - right. left. reflexivity.
  - intros H. apply (f_equal this) in H. vm_compute in H. discriminate.
Defined.

(** ** The optimizers *)

(** *** Construction of Levenberg-Marquardt *)

(** C8: with a damping factor [<= 0] the constructor fails its assertion
    and builds no optimizer; an optimizer that the constructor returns has
    a positive damping factor in each of its parameter groups, the value
    that every later step reads. *)
Theorem LevenbergMarquardt_init_damping (damping min max : Qc) (s : Optim.Store) :
  (damping <= 0 ->
   Optim.run (Optim.LevenbergMarquardt_init damping min max) s
   = (s, Raise (AssertionError "Invalid damping factor"))) /\
  (forall s' self,
     Optim.run (Optim.LevenbergMarquardt_init damping min max) s = (s', Ok self) ->
     Forall (fun pg => 0 < Optim.damping pg) (Optim.param_groups self)).
Proof.
  unfold Optim.LevenbergMarquardt_init. split.
  - intros Hd. rewrite bool_decide_eq_false_2 by (by apply Qcle_not_lt). reflexivity.
  - intros s' self. case_bool_decide as Hd; cbn; [|discriminate].
    case_bool_decide; cbn; [discriminate|]. intros [= _ <-]. cbn.
    repeat constructor. exact Hd.
Qed.

Lemma LevenbergMarquardt_init_damping_witness :
  Optim.run (Optim.LevenbergMarquardt_init (- (1)) (Examples.q 1 3) (Examples.q 100 1))
            Examples.store_trainable
  = (Examples.store_trainable, Raise (AssertionError "Invalid damping factor")) /\
  Forall (fun pg => 0 < Optim.damping pg)
    [ {| Optim.params := [0%nat]; Optim.damping := Examples.q 1 2;
         Optim.min := Examples.q 1 3; Optim.max := Examples.q 100 1 |} ].
Proof.
  split.
  - apply (proj1 (LevenbergMarquardt_init_damping (- (1)) (Examples.q 1 3)
                    (Examples.q 100 1) Examples.store_trainable)).
    vm_compute. discriminate.
  - apply (proj2 (LevenbergMarquardt_init_damping (Examples.q 1 2) (Examples.q 1 3)
                    (Examples.q 100 1) Examples.store_trainable)
             Examples.store_trainable
             {| Optim.param_groups :=
                  [ {| Optim.params := [0%nat]; Optim.damping := Examples.q 1 2;
                       Optim.min := Examples.q 1 3; Optim.max := Examples.q 100 1 |} ] |}).
    reflexivity.
Defined.

(** *** Frozen parameters *)


Lemma frozen_kept_refl s : frozen_kept s s.
Proof. by intros i p. Qed.

Lemma frozen_kept_trans s1 s2 s3 :
  frozen_kept s1 s2 -> frozen_kept s2 s3 -> frozen_kept s1 s3.
Proof. intros H12 H23 i p Hp Hf. apply H23; [|done]. by apply H12. Qed.

Lemma keeps_ret {A} (a : A) : keeps_frozen (mret a).
Proof. intros s. apply frozen_kept_refl. Qed.

Lemma keeps_lift {A} (r : Result A) : keeps_frozen (Optim.lift r).
Proof. intros s. apply frozen_kept_refl. Qed.

Lemma keeps_get : keeps_frozen Optim.get.
Proof. intros s. apply frozen_kept_refl. Qed.

Lemma keeps_bind {A B} (m : Optim.M A) (f : A -> Optim.M B) :
  keeps_frozen m -> (forall a, keeps_frozen (f a)) -> keeps_frozen (m ≫= f).
Proof.
  intros Hm Hf s. unfold mbind, Optim.M_bind. cbn [Optim.run]. specialize (Hm s).
  destruct (Optim.run m s) as [s' [a|e]]; cbn [fst] in *; [|exact Hm].
  eapply frozen_kept_trans; [exact Hm|]. apply Hf.
Qed.

Lemma keeps_for {A} (l : list A) (body : A -> Optim.M unit) :
  (forall a, keeps_frozen (body a)) -> keeps_frozen (Optim.for_ l body).
Proof.
  intros Hb. induction l as [|a l IH]; cbn [Optim.for_].
  - apply keeps_ret.
  - apply keeps_bind; [apply Hb|]. intros _. exact IH.
Qed.

Lemma keeps_deref i : keeps_frozen (Optim.deref i).
Proof.
  unfold Optim.deref. apply keeps_bind; [apply keeps_get|]. intros s. apply keeps_lift.
Qed.

(** The guarded update: [add_] is reached on trainable tensors only. *)
Lemma keeps_update params D : keeps_frozen (Optim.update params D).
Proof.
  unfold Optim.update. apply keeps_for. intros [i d] s j q Hq Hfrozen.
  unfold Optim.deref, Optim.add_, Optim.deref, mbind, Optim.M_bind, mret, Optim.M_ret,
    Optim.get, Optim.lift, index.
  unfold Optim.Store in *.
  cbn beta iota delta [Optim.run fst].
  destruct (s !! i) as [p|] eqn:Hp.
  2:{ exact Hq. }
  cbn beta iota delta [Optim.run fst].
  destruct (Optim.requires_grad p) eqn:Hg.
  2:{ exact Hq. }
  cbn beta iota delta [Optim.run fst]. rewrite Hp.
  cbn beta iota delta [Optim.run fst].
  destruct (bool_decide (length d = Optim.numel p)).
  2:{ exact Hq. }
  cbn beta iota delta [Optim.run fst].
  destruct (decide (i = j)) as [->|Hne]; [congruence|].
  by rewrite list_lookup_insert_ne.
Qed.

Lemma keeps_trainable_numels params : keeps_frozen (Optim.trainable_numels params).
Proof.
  unfold Optim.trainable_numels. apply keeps_bind; [apply keeps_get|]. intros s.
  apply keeps_bind; [apply keeps_lift|]. intros ps. apply keeps_ret.
Qed.

Section frozen.
Variable Tensor : Type.
Variable tsub : Tensor -> Tensor -> Result Tensor.
Variable flat : Tensor -> list Qc.
Variable unbind : Tensor -> Result (list Tensor).
Variable Inputs : Type.
Variable model : Optim.Store -> Inputs -> Optim.Value Tensor.
Variable modjac : Optim.Store -> Inputs -> Optim.Matrix.
Variable pinverse : Optim.Matrix -> Optim.Matrix.
Variable cholesky : Optim.Matrix -> option Optim.Matrix.
Variable cholesky_solve : Optim.Matrix -> Optim.Matrix -> Optim.Matrix.
Variable sqrt : Qc -> Qc.

Lemma keeps_residual inputs targets :
  keeps_frozen (Optim._residual Tensor tsub flat unbind Inputs model inputs targets).
Proof.
  unfold Optim._residual. apply keeps_bind; [apply keeps_get|]. intros s.
  destruct targets as [[t|ts]|]; destruct (model s inputs) as [o|os];
    repeat first [apply keeps_lift | apply keeps_ret
                 | apply keeps_bind; [|intros ?]].
Qed.

Lemma keeps_GaussNewton_step self inputs targets :
  keeps_frozen (Optim.GaussNewton_step Tensor tsub flat unbind Inputs model modjac
                  pinverse sqrt self inputs targets).
Proof.
  unfold Optim.GaussNewton_step.
  apply keeps_bind; [apply keeps_residual|]. intros E.
  apply keeps_bind.
  - apply keeps_for. intros pg.
    apply keeps_bind; [apply keeps_trainable_numels|]. intros numels.
    apply keeps_bind; [apply keeps_get|]. intros s. cbv zeta.
    repeat (apply keeps_bind; [apply keeps_lift|]; intros ?).
    apply keeps_update.
  - intros _. apply keeps_bind; [apply keeps_residual|]. intros E'. apply keeps_ret.
Qed.

Lemma keeps_LevenbergMarquardt_step self inputs targets :
  keeps_frozen (Optim.LevenbergMarquardt_step Tensor tsub flat unbind Inputs model modjac
                  cholesky cholesky_solve sqrt self inputs targets).
Proof.
  unfold Optim.LevenbergMarquardt_step.
  apply keeps_bind; [apply keeps_residual|]. intros E.
  apply keeps_bind.
  - apply keeps_for. intros pg.
    apply keeps_bind; [apply keeps_trainable_numels|]. intros numels.
    apply keeps_bind; [apply keeps_get|]. intros s. cbv zeta.
    repeat (apply keeps_bind; [apply keeps_lift|]; intros ?).
    apply keeps_update.
  - intros _. apply keeps_bind; [apply keeps_residual|]. intros E'. apply keeps_ret.
Qed.

(** C10: a parameter with [requires_grad = False] is the same tensor after
    a step of either optimizer as before, whether the step returns or
    raises. *)
Theorem step_keeps_frozen (gn : Optim.GaussNewton) (lm : Optim.LevenbergMarquardt)
    (inputs : Inputs) (targets : option (Optim.Value Tensor))
    (s : Optim.Store) (i : nat) (p : Optim.Param) :
  s !! i = Some p -> Optim.requires_grad p = false ->
  fst (Optim.run (Optim.GaussNewton_step Tensor tsub flat unbind Inputs model modjac
                    pinverse sqrt gn inputs targets) s) !! i = Some p /\
  fst (Optim.run (Optim.LevenbergMarquardt_step Tensor tsub flat unbind Inputs model
                    modjac cholesky cholesky_solve sqrt lm inputs targets) s) !! i
  = Some p.
Proof.
  intros Hp Hf. split.
  - by apply (keeps_GaussNewton_step gn inputs targets s i p).
  - by apply (keeps_LevenbergMarquardt_step lm inputs targets s i p).
Qed.
End frozen.

Lemma step_keeps_frozen_witness :
  fst (Optim.run (Optim.GaussNewton_step Examples.Tensor Examples.tsub_same
                    Examples.flat_id Examples.unbind_1d unit Examples.model_id
                    Examples.modjac_trainable Examples.pinverse_diag
                    Examples.rational_sqrt
                    {| Optim.gn_param_groups := [[0; 1]%nat] |} tt
                    (Some (Optim.Single [Examples.q 4 1])))
         Examples.store_frozen_first) !! 0%nat
  = Some (Examples.param [1%nat] [Examples.q 7 1] false) /\
  fst (Optim.run (Optim.LevenbergMarquardt_step Examples.Tensor Examples.tsub_same
                    Examples.flat_id Examples.unbind_1d unit Examples.model_id
                    Examples.modjac_trainable Examples.cholesky_diag
                    Examples.cholesky_solve_diag Examples.rational_sqrt
                    {| Optim.param_groups :=
                         [ {| Optim.params := [0; 1]%nat; Optim.damping := Examples.q 3 1;
                              Optim.min := Examples.q 1 3;
                              Optim.max := Examples.q 100 1 |} ] |} tt
                    (Some (Optim.Single [Examples.q 4 1])))
         Examples.store_frozen_first) !! 0%nat
  = Some (Examples.param [1%nat] [Examples.q 7 1] false).
Proof.
  apply (step_keeps_frozen Examples.Tensor Examples.tsub_same Examples.flat_id
           Examples.unbind_1d unit Examples.model_id Examples.modjac_trainable
           Examples.pinverse_diag Examples.cholesky_diag Examples.cholesky_solve_diag
           Examples.rational_sqrt).
  - reflexivity.
  - reflexivity.
Defined.

(** *** A frozen parameter ahead of a trainable one *)


(** C2 at the model [f(θ) = θ1] with a frozen parameter [θ0] in front,
    [θ1 = 0], target 4, damping 3 and clamp range [[1/3, 100]]: [JᵀJ = 1]
    is damped to 4 and [δ = 1]. With the Jacobian taken with respect to the
    trainable parameters the step adds [δ] to no parameter and returns the
    norm of the old residual, where the slice belongs to [θ1]; with the
    Jacobian taken with respect to all parameters [torch.split] raises. *)
Lemma LevenbergMarquardt_step_frozen_first :
  Optim.run (Optim.LevenbergMarquardt_step Examples.Tensor Examples.tsub_same
               Examples.flat_id Examples.unbind_1d unit Examples.model_id
               Examples.modjac_trainable Examples.cholesky_diag
               Examples.cholesky_solve_diag Examples.rational_sqrt
               {| Optim.param_groups :=
                    [ {| Optim.params := [0; 1]%nat; Optim.damping := Examples.q 3 1;
                         Optim.min := Examples.q 1 3; Optim.max := Examples.q 100 1 |} ] |}
               tt (Some (Optim.Single [Examples.q 4 1])))
            Examples.store_frozen_first
  = (Examples.store_frozen_first, Ok (Examples.q 4 1)) /\
  OptimSpec.add_slices Examples.store_frozen_first [1]
  = [Examples.param [1%nat] [Examples.q 7 1] false; Examples.param [1%nat] [1] true] /\
  Optim.run (Optim.LevenbergMarquardt_step Examples.Tensor Examples.tsub_same
               Examples.flat_id Examples.unbind_1d unit Examples.model_id
               Examples.modjac_all Examples.cholesky_diag
               Examples.cholesky_solve_diag Examples.rational_sqrt
               {| Optim.param_groups :=
                    [ {| Optim.params := [0; 1]%nat; Optim.damping := Examples.q 3 1;
                         Optim.min := Examples.q 1 3; Optim.max := Examples.q 100 1 |} ] |}
               tt (Some (Optim.Single [Examples.q 4 1])))
            Examples.store_frozen_first
  = (Examples.store_frozen_first, Raise RuntimeError).
Proof. repeat split; qc_decide. Qed.

(** C3 at the same model and target: the update is [δ = 4]. With the
    Jacobian taken with respect to the trainable parameters the step adds
    it to no parameter and returns the norm 4 of the residual at the old
    parameters, where adding [δ] to [θ1] gives the residual 0; with the
    Jacobian taken with respect to all parameters [torch.split] raises. *)
Lemma GaussNewton_step_frozen_first :
  Optim.run (Optim.GaussNewton_step Examples.Tensor Examples.tsub_same
               Examples.flat_id Examples.unbind_1d unit Examples.model_id
               Examples.modjac_trainable Examples.pinverse_diag Examples.rational_sqrt
               {| Optim.gn_param_groups := [[0; 1]%nat] |} tt
               (Some (Optim.Single [Examples.q 4 1])))
            Examples.store_frozen_first
  = (Examples.store_frozen_first, Ok (Examples.q 4 1)) /\
  OptimSpec.add_slices Examples.store_frozen_first [Examples.q 4 1]
  = Examples.store_frozen_first_solved /\
  Optim.run (Optim._residual Examples.Tensor Examples.tsub_same Examples.flat_id
               Examples.unbind_1d unit Examples.model_id tt
               (Some (Optim.Single [Examples.q 4 1])))
            Examples.store_frozen_first_solved
  = (Examples.store_frozen_first_solved, Ok [0]) /\
  Optim.run (Optim.GaussNewton_step Examples.Tensor Examples.tsub_same
               Examples.flat_id Examples.unbind_1d unit Examples.model_id
               Examples.modjac_all Examples.pinverse_diag Examples.rational_sqrt
               {| Optim.gn_param_groups := [[0; 1]%nat] |} tt
               (Some (Optim.Single [Examples.q 4 1])))
            Examples.store_frozen_first
  = (Examples.store_frozen_first, Raise RuntimeError).
Proof. repeat split; qc_decide. Qed.

(** C9 at a zero residual: the model [f(θ) = (θ1, θ2)] behind a frozen
    [θ0], at its target. With the Jacobian taken with respect to the
    trainable parameters, of 2 and 1 elements, the slice of [θ2] meets [θ1]
    and [view] raises; with the Jacobian taken with respect to all
    parameters [torch.split] raises. The step returns no 0. *)
Lemma GaussNewton_step_zero_residual_frozen_first :
  Optim.run (Optim._residual Examples.Tensor Examples.tsub_same Examples.flat_id
               Examples.unbind_1d unit Examples.model_id tt
               (Some (Optim.Single [1; Examples.q 2 1; Examples.q 3 1])))
            Examples.store_frozen_then_two
  = (Examples.store_frozen_then_two, Ok [0; 0; 0]) /\
  Optim.run (Optim.GaussNewton_step Examples.Tensor Examples.tsub_same
               Examples.flat_id Examples.unbind_1d unit Examples.model_id
               Examples.modjac_trainable Examples.pinverse_diag Examples.rational_sqrt
               {| Optim.gn_param_groups := [[0; 1; 2]%nat] |} tt
               (Some (Optim.Single [1; Examples.q 2 1; Examples.q 3 1])))
            Examples.store_frozen_then_two
  = (Examples.store_frozen_then_two, Raise RuntimeError) /\
  Optim.run (Optim.GaussNewton_step Examples.Tensor Examples.tsub_same
               Examples.flat_id Examples.unbind_1d unit Examples.model_id
               Examples.modjac_all Examples.pinverse_diag Examples.rational_sqrt
               {| Optim.gn_param_groups := [[0; 1; 2]%nat] |} tt
               (Some (Optim.Single [1; Examples.q 2 1; Examples.q 3 1])))
            Examples.store_frozen_then_two
  = (Examples.store_frozen_then_two, Raise RuntimeError).
Proof. repeat split; qc_decide. Qed.

(** *** Parameters that all require gradients *)


Lemma run_bind {A B} (m : Optim.M A) (f : A -> Optim.M B) (s : Optim.Store) :
  Optim.run (m ≫= f) s =
  match Optim.run m s with
  | (s', Ok a) => Optim.run (f a) s'
  | (s', Raise e) => (s', Raise e)
  end.
Proof. reflexivity. Qed.

Lemma run_deref (s : Optim.Store) (i : nat) (p : Optim.Param) :
  s !! i = Some p -> Optim.run (Optim.deref i) s = (s, Ok p).
Proof.
  intros H. unfold Optim.deref. rewrite run_bind. cbn. unfold index.
  unfold Optim.Store in *. by rewrite H.
Qed.

Lemma run_add_ (s : Optim.Store) (i : nat) (d : list Qc) (p : Optim.Param) :
  s !! i = Some p -> length d = Optim.numel p ->
  Optim.run (Optim.add_ i d) s
  = (<[i := {| Optim.shape := Optim.shape p;
               Optim.data := zip_with Qcplus (Optim.data p) d;
               Optim.requires_grad := Optim.requires_grad p |}]> s, Ok tt).
Proof.
  intros Hp Hd. unfold Optim.add_. rewrite run_bind, (run_deref _ _ p) by done.
  by rewrite bool_decide_eq_true_2.
Qed.

Lemma filter_all_trainable (ps : list Optim.Param) :
  Forall (fun p => Optim.requires_grad p = true) ps ->
  filter (fun p => Optim.requires_grad p = true) ps = ps.
Proof.
  induction 1 as [|p ps Hp _ IH]; [done|].
  rewrite filter_cons_True by done. by rewrite IH.
Qed.

Lemma mapR_index_seq {A} (pre l : list A) :
  mapR (index (pre ++ l)) (seq (length pre) (length l)) = Ok l.
Proof.
  revert pre. induction l as [|a l IH]; intros pre; [done|].
  cbn [length seq mapR].
  rewrite (index_Some (pre ++ a :: l) (length pre) a) by (by apply list_lookup_middle).
  cbn [mbind Result_bind].
  replace (pre ++ a :: l) with ((pre ++ [a]) ++ l) by (by rewrite <- app_assoc).
  replace (S (length pre)) with (length (pre ++ [a])) by (rewrite length_app; cbn; lia).
  by rewrite IH.
Qed.

Lemma run_trainable_numels (s : Optim.Store) :
  Forall (fun p => Optim.requires_grad p = true) s ->
  Optim.run (Optim.trainable_numels (seq 0 (length s))) s = (s, Ok (map Optim.numel s)).
Proof.
  intros Hs. unfold Optim.trainable_numels. rewrite run_bind. cbn [Optim.run Optim.get].
  rewrite run_bind. cbn [Optim.run Optim.lift].
  pose proof (mapR_index_seq [] s) as Hm. cbn [app length] in Hm.
  unfold Optim.Store in *. rewrite Hm. cbn [Optim.run mret Optim.M_ret].
  by rewrite filter_all_trainable.
Qed.

Lemma run_update_all_trainable (pre ps : list Optim.Param) (delta : list Qc) :
  Forall (fun p => Optim.requires_grad p = true) ps ->
  (total_numel ps <= length delta)%nat ->
  Optim.run (Optim.update (seq (length pre) (length ps))
                          (Optim.chunks delta (map Optim.numel ps))) (pre ++ ps)
  = (pre ++ OptimSpec.add_slices ps delta, Ok tt).
Proof.
  intros Hps. revert pre delta.
  induction Hps as [|p ps Hp Hps IH]; intros pre delta Hlen.
  - reflexivity.
  - unfold total_numel in Hlen. cbn [map foldr] in Hlen. fold (total_numel ps) in Hlen.
    unfold Optim.update in *.
    cbn [length seq map Optim.chunks zip zip_with Optim.for_ OptimSpec.add_slices].
    rewrite Hp, run_bind, run_bind.
    rewrite (run_deref _ _ p) by (by apply list_lookup_middle).
    rewrite Hp.
    rewrite (run_add_ _ _ _ p);
      [|by apply list_lookup_middle|rewrite length_take_le; lia].
    rewrite Hp. unfold Optim.Store.
    rewrite insert_app_r_alt by lia. rewrite Nat.sub_diag. cbn [insert list_insert].
    set (p' := {| Optim.shape := _ |}).
    specialize (IH (pre ++ [p']) (drop (Optim.numel p) delta)).
    rewrite length_app, <- app_assoc in IH. cbn [length app] in IH.
    rewrite Nat.add_1_r in IH. rewrite IH; [|rewrite length_drop; lia].
    by rewrite <- app_assoc.
Qed.

Section all_trainable.
Variable Tensor : Type.
Variable tsub : Tensor -> Tensor -> Result Tensor.
Variable flat : Tensor -> list Qc.
Variable unbind : Tensor -> Result (list Tensor).
Variable Inputs : Type.
Variable model : Optim.Store -> Inputs -> Optim.Value Tensor.
Variable modjac : Optim.Store -> Inputs -> Optim.Matrix.
Variable pinverse : Optim.Matrix -> Optim.Matrix.
Variable cholesky : Optim.Matrix -> option Optim.Matrix.
Variable cholesky_solve : Optim.Matrix -> Optim.Matrix -> Optim.Matrix.
Variable sqrt : Qc -> Qc.

Lemma run_residual_store inputs targets s :
  fst (Optim.run (Optim._residual Tensor tsub flat unbind Inputs model inputs targets) s) = s.
Proof.
  unfold Optim._residual. rewrite run_bind. cbn [Optim.run Optim.get].
  destruct targets as [[t|ts]|]; destruct (model s inputs) as [o|os];
    rewrite ?run_bind; cbn [Optim.run Optim.lift mret Optim.M_ret fst]; try done.
  - destruct (Optim.iterate Tensor unbind (Optim.Single t)); [|done].
    rewrite run_bind. cbn [Optim.run Optim.lift]. by destruct (mapR _ _).
  - destruct (Optim.iterate Tensor unbind (Optim.Tuple ts)); [|done].
    rewrite run_bind. cbn [Optim.run Optim.lift]. by destruct (mapR _ _).
Qed.

(** When every parameter requires gradients, the step of the optimizer
    that the constructor builds adds the slices of
    [δ = pinv(JᵀJ) · JᵀE] to the parameters and returns the norm of the
    residual at the new parameters. *)
Lemma GaussNewton_step_all_trainable inputs targets (s : Optim.Store) (E : list Qc) :
  s <> [] ->
  Forall (fun p => Optim.requires_grad p = true) s ->
  Optim.run (Optim._residual Tensor tsub flat unbind Inputs model inputs targets) s
  = (s, Ok E) ->
  Optim.nrows (modjac s inputs) = length E ->
  Optim.ncols (modjac s inputs) = total_numel s ->
  Optim.nrows (pinverse (OptimSpec.gram (modjac s inputs))) = Optim.ncols (modjac s inputs) ->
  Optim.ncols (pinverse (OptimSpec.gram (modjac s inputs))) = Optim.ncols (modjac s inputs) ->
  exists self,
    Optim.run Optim.GaussNewton_init s = (s, Ok self) /\
    Optim.run (Optim.GaussNewton_step Tensor tsub flat unbind Inputs model modjac
                 pinverse sqrt self inputs targets) s
    = Optim.run (E' ← Optim._residual Tensor tsub flat unbind Inputs model inputs targets;
                 mret (Optim.norm sqrt E'))
                (OptimSpec.add_slices s (OptimSpec.gn_delta pinverse (modjac s inputs) E)).
Proof.
  intros Hne Hs HE Hrows Hcols HPr HPc.
  exists {| Optim.gn_param_groups := [seq 0 (length s)] |}. split.
  { unfold Optim.GaussNewton_init. rewrite run_bind. cbn [Optim.run Optim.get].
    rewrite bool_decide_eq_false_2; [done|]. by destruct s. }
  unfold Optim.GaussNewton_step. rewrite run_bind, HE.
  cbn [Optim.gn_param_groups Optim.for_].
  rewrite run_bind, run_bind, run_bind, run_trainable_numels by done.
  rewrite run_bind. cbn [Optim.run Optim.get]. cbv zeta.
  unfold Optim.matmul.
  rewrite run_bind. cbn [Optim.run Optim.lift Optim.transpose Optim.ncols Optim.nrows].
  rewrite bool_decide_eq_true_2 by done.
  rewrite run_bind. cbn [Optim.run Optim.lift Optim.column Optim.ncols Optim.nrows].
  rewrite bool_decide_eq_true_2 by done.
  rewrite run_bind. cbn [Optim.run Optim.lift Optim.ncols Optim.nrows].
  change {| Optim.nrows := Optim.ncols (modjac s inputs);
            Optim.ncols := Optim.ncols (modjac s inputs);
            Optim.entry := _ |} with (OptimSpec.gram (modjac s inputs)).
  rewrite bool_decide_eq_true_2 by done.
  rewrite run_bind. unfold Optim.split, Optim.column0.
  cbn [Optim.run Optim.lift Optim.ncols Optim.nrows Optim.entry].
  rewrite length_map, length_seq, HPr.
  rewrite bool_decide_eq_true_2 by done.
  rewrite HPc.
  change (map _ (seq 0 (Optim.ncols (modjac s inputs))))
    with (OptimSpec.gn_delta pinverse (modjac s inputs) E).
  pose proof (run_update_all_trainable [] s
                (OptimSpec.gn_delta pinverse (modjac s inputs) E) Hs) as Hup.
  cbn [app length] in Hup. rewrite Hup.
  2:{ unfold OptimSpec.gn_delta. rewrite length_map, length_seq. lia. }
  cbn [Optim.run mret Optim.M_ret]. reflexivity.
Qed.
End all_trainable.

Lemma nth_map_seq (f : nat -> Qc) (n i : nat) :
  (i < n)%nat -> nth i (map f (seq 0 n)) 0 = f i.
Proof.
  intros Hi. rewrite (nth_indep _ 0 (f 0%nat)) by (by rewrite length_map, length_seq).
  rewrite map_nth, seq_nth by done. reflexivity.
Qed.

Section all_trainable_damped.
Variable Tensor : Type.
Variable tsub : Tensor -> Tensor -> Result Tensor.
Variable flat : Tensor -> list Qc.
Variable unbind : Tensor -> Result (list Tensor).
Variable Inputs : Type.
Variable model : Optim.Store -> Inputs -> Optim.Value Tensor.
Variable modjac : Optim.Store -> Inputs -> Optim.Matrix.
Variable cholesky : Optim.Matrix -> option Optim.Matrix.
Variable cholesky_solve : Optim.Matrix -> Optim.Matrix -> Optim.Matrix.
Variable sqrt : Qc -> Qc.


Lemma damped_entries (J : Optim.Matrix) (damping min max : Qc) (i j : nat) :
  (i < Optim.ncols J)%nat ->
  Optim.entry (OptimSpec.damped J damping min max) i j = OptimSpec.damped_entry J damping min max i j.
Proof.
  intros Hi. unfold OptimSpec.damped, OptimSpec.damped_entry, Optim.diagonal_add_, Optim.diagonal.
  cbn [Optim.entry]. case_bool_decide as Hij; [subst j|done].
  rewrite map_map. cbn [OptimSpec.gram Optim.nrows Optim.ncols].
  rewrite Nat.min_id, (nth_map_seq _ _ i) by done. reflexivity.
Qed.

(** X2. When every parameter requires gradients, the step of the optimizer
    that the constructor builds factors [JᵀJ] damped on its diagonal, raises
    when the factorization fails, and otherwise adds the slices of the
    solution [δ] of [A δ = JᵀE] to the parameters and returns the norm of the
    residual at the new parameters. *)
Lemma LevenbergMarquardt_step_all_trainable inputs targets (s : Optim.Store) (E : list Qc)
    (damping min max : Qc) :
  s <> [] -> 0 < damping ->
  Forall (fun p => Optim.requires_grad p = true) s ->
  Optim.run (Optim._residual Tensor tsub flat unbind Inputs model inputs targets) s
  = (s, Ok E) ->
  Optim.nrows (modjac s inputs) = length E ->
  Optim.ncols (modjac s inputs) = total_numel s ->
  (forall L, Optim.nrows (cholesky_solve (OptimSpec.rhs (modjac s inputs) E) L)
             = Optim.ncols (modjac s inputs)) ->
  exists self,
    Optim.run (Optim.LevenbergMarquardt_init damping min max) s = (s, Ok self) /\
    Optim.run (Optim.LevenbergMarquardt_step Tensor tsub flat unbind Inputs model modjac
                 cholesky cholesky_solve sqrt self inputs targets) s
    = match cholesky (OptimSpec.damped (modjac s inputs) damping min max) with
      | None => (s, Raise LinAlgError)
      | Some L =>
          Optim.run (E' ← Optim._residual Tensor tsub flat unbind Inputs model inputs targets;
                     mret (Optim.norm sqrt E'))
            (OptimSpec.add_slices s
               (Optim.column0 (cholesky_solve (OptimSpec.rhs (modjac s inputs) E) L)))
      end.
Proof.
  intros Hne Hd Hs HE Hrows Hcols Hsolve.
  exists {| Optim.param_groups :=
              [ {| Optim.params := seq 0 (length s); Optim.damping := damping;
                   Optim.min := min; Optim.max := max |} ] |}. split.
  { unfold Optim.LevenbergMarquardt_init. rewrite run_bind.
    cbn [Optim.run Optim.lift]. rewrite bool_decide_eq_true_2 by done.
    cbn [py_assert]. rewrite run_bind. cbn [Optim.run Optim.get].
    rewrite bool_decide_eq_false_2; [done|]. by destruct s. }
  unfold Optim.LevenbergMarquardt_step. rewrite run_bind, HE.
  cbn [Optim.param_groups Optim.for_ Optim.params Optim.damping Optim.min Optim.max].
  rewrite run_bind, run_bind, run_bind, run_trainable_numels by done.
  rewrite run_bind. cbn [Optim.run Optim.get]. cbv zeta.
  unfold Optim.matmul.
  rewrite run_bind. cbn [Optim.run Optim.lift Optim.transpose Optim.ncols Optim.nrows].
  rewrite bool_decide_eq_true_2 by done.
  rewrite run_bind. cbn [Optim.run Optim.lift Optim.column Optim.ncols Optim.nrows].
  rewrite bool_decide_eq_true_2 by done.
  rewrite run_bind. cbn [Optim.run Optim.lift].
  change (Optim.diagonal_add_ _ _) with (OptimSpec.damped (modjac s inputs) damping min max).
  destruct (cholesky (OptimSpec.damped (modjac s inputs) damping min max)) as [L|]; [|reflexivity].
  change {| Optim.nrows := Optim.ncols (modjac s inputs); Optim.ncols := 1;
            Optim.entry := _ |} with (OptimSpec.rhs (modjac s inputs) E).
  rewrite run_bind. unfold Optim.split. cbn [Optim.run Optim.lift].
  rewrite bool_decide_eq_true_2.
  2:{ unfold Optim.column0. rewrite length_map, length_seq, Hsolve. done. }
  pose proof (run_update_all_trainable [] s
                (Optim.column0 (cholesky_solve (OptimSpec.rhs (modjac s inputs) E) L)) Hs)
    as Hup.
  cbn [app length] in Hup. rewrite Hup.
  2:{ unfold Optim.column0. rewrite length_map, length_seq, Hsolve. lia. }
  cbn [Optim.run mret Optim.M_ret]. reflexivity.
Qed.
End all_trainable_damped.

(** *** A residual that is already zero *)

Lemma sumn_zero (n : nat) (f : nat -> Qc) : (forall k, f k = 0) -> Optim.sumn n f = 0.
Proof.
  intros Hf. unfold Optim.sumn. induction (seq 0 n) as [|k l IH]; [done|].
  cbn [foldr]. rewrite Hf, IH. ring.
Qed.

Lemma nth_zeros (E : list Qc) (k : nat) : Forall (fun e => e = 0) E -> nth k E 0 = 0.
Proof.
  intros HE. revert k. induction HE as [|e E -> _ IH]; intros [|k]; cbn; auto.
Qed.

Lemma zip_with_plus_zeros (d z : list Qc) :
  Forall (fun e => e = 0) z -> (length d <= length z)%nat -> zip_with Qcplus d z = d.
Proof.
  intros Hz. revert d. induction Hz as [|e z -> _ IH]; intros [|a d] Hlen; cbn in *;
    try done; try lia.
  rewrite IH by lia. f_equal. ring.
Qed.

Lemma add_slices_zeros (s : Optim.Store) (delta : list Qc) :
  Optim.wf_store s -> Forall (fun e => e = 0) delta ->
  (total_numel s <= length delta)%nat ->
  OptimSpec.add_slices s delta = s.
Proof.
  intros Hwf. revert delta. induction Hwf as [|p s Hp _ IH]; intros delta Hz Hlen; [done|].
  unfold total_numel in Hlen. cbn [map foldr] in Hlen. fold (total_numel s) in Hlen.
  cbn [OptimSpec.add_slices]. destruct (Optim.requires_grad p) eqn:Hg.
  - rewrite IH; [|by apply Forall_drop|rewrite length_drop; lia].
    rewrite zip_with_plus_zeros; [|by apply Forall_take|rewrite length_take_le; lia].
    f_equal. destruct p; cbn in *. by rewrite Hg.
  - rewrite IH; [done|done|lia].
Qed.

Lemma gn_delta_zeros (pinverse : Optim.Matrix -> Optim.Matrix) (J : Optim.Matrix)
    (E : list Qc) :
  Forall (fun e => e = 0) E ->
  Forall (fun e => e = 0) (OptimSpec.gn_delta pinverse J E).
Proof.
  intros HE. unfold OptimSpec.gn_delta. apply Forall_map, Forall_forall. intros i _.
  cbn. apply sumn_zero. intros k. rewrite sumn_zero; [ring|].
  intros r. rewrite nth_zeros by done. ring.
Qed.

Lemma norm_zeros (sqrt : Qc -> Qc) (E : list Qc) :
  sqrt 0 = 0 -> Forall (fun e => e = 0) E -> Optim.norm sqrt E = 0.
Proof.
  intros Hsqrt HE. unfold Optim.norm.
  replace (foldr Qcplus 0 (map (fun e => e * e) E)) with (Q2Qc 0); [done|].
  induction HE as [|e E -> _ IH]; [done|]. cbn. rewrite <- IH. ring.
Qed.

Section zero_residual.
Variable Tensor : Type.
Variable tsub : Tensor -> Tensor -> Result Tensor.
Variable flat : Tensor -> list Qc.
Variable unbind : Tensor -> Result (list Tensor).
Variable Inputs : Type.
Variable model : Optim.Store -> Inputs -> Optim.Value Tensor.
Variable modjac : Optim.Store -> Inputs -> Optim.Matrix.
Variable pinverse : Optim.Matrix -> Optim.Matrix.
Variable sqrt : Qc -> Qc.

(** X3. When every parameter requires gradients and the residual is zero, the
    update is zero, and the step of the optimizer that the constructor
    builds returns 0 and leaves the parameters as they are. *)
Lemma GaussNewton_step_zero_residual inputs targets (s : Optim.Store) (E : list Qc) :
  s <> [] -> Optim.wf_store s -> sqrt 0 = 0 ->
  Forall (fun p => Optim.requires_grad p = true) s ->
  Optim.run (Optim._residual Tensor tsub flat unbind Inputs model inputs targets) s
  = (s, Ok E) ->
  Forall (fun e => e = 0) E ->
  Optim.nrows (modjac s inputs) = length E ->
  Optim.ncols (modjac s inputs) = total_numel s ->
  Optim.nrows (pinverse (OptimSpec.gram (modjac s inputs))) = Optim.ncols (modjac s inputs) ->
  Optim.ncols (pinverse (OptimSpec.gram (modjac s inputs))) = Optim.ncols (modjac s inputs) ->
  exists self,
    Optim.run Optim.GaussNewton_init s = (s, Ok self) /\
    Forall (fun e => e = 0) (OptimSpec.gn_delta pinverse (modjac s inputs) E) /\
    Optim.run (Optim.GaussNewton_step Tensor tsub flat unbind Inputs model modjac
                 pinverse sqrt self inputs targets) s
    = (s, Ok 0).
Proof.
  intros Hne Hwf Hsqrt Hs HE Hz Hrows Hcols HPr HPc.
  destruct (GaussNewton_step_all_trainable Tensor tsub flat unbind Inputs model modjac
              pinverse sqrt inputs targets s E Hne Hs HE Hrows Hcols HPr HPc)
    as (self & Hinit & Hstep).
  exists self. split; [done|]. split; [by apply gn_delta_zeros|].
  rewrite Hstep, add_slices_zeros; [|done|by apply gn_delta_zeros|].
  2:{ unfold OptimSpec.gn_delta. rewrite length_map, length_seq. lia. }
  rewrite run_bind, HE. cbn [Optim.run mret Optim.M_ret].
  by rewrite norm_zeros.
Qed.
End zero_residual.

(** ** Evaluations of the general lemmas *)


Lemma LevenbergMarquardt_step_all_trainable_witness :
  exists self,
    Optim.run (Optim.LevenbergMarquardt_init (Examples.q 3 1) (Examples.q 1 3)
                 (Examples.q 100 1)) [Examples.param [1%nat] [0] true]
    = ([Examples.param [1%nat] [0] true], Ok self) /\
    Optim.run (Optim.LevenbergMarquardt_step Examples.Tensor Examples.tsub_same
                 Examples.flat_id Examples.unbind_1d unit Examples.model_id
                 Examples.modjac_trainable Examples.cholesky_diag
                 Examples.cholesky_solve_diag Examples.rational_sqrt self tt
                 (Some (Optim.Single [Examples.q 4 1])))
              [Examples.param [1%nat] [0] true]
    = match Examples.cholesky_diag
              (OptimSpec.damped
                 (Examples.modjac_trainable [Examples.param [1%nat] [0] true] tt)
                 (Examples.q 3 1) (Examples.q 1 3) (Examples.q 100 1)) with
      | None => ([Examples.param [1%nat] [0] true], Raise LinAlgError)
      | Some L =>
          Optim.run
            (E' ← Optim._residual Examples.Tensor Examples.tsub_same Examples.flat_id
                    Examples.unbind_1d unit Examples.model_id tt
                    (Some (Optim.Single [Examples.q 4 1]));
             mret (Optim.norm Examples.rational_sqrt E'))
            (OptimSpec.add_slices [Examples.param [1%nat] [0] true]
               (Optim.column0
                  (Examples.cholesky_solve_diag
                     (OptimSpec.rhs
                        (Examples.modjac_trainable [Examples.param [1%nat] [0] true] tt)
                        [Examples.q 4 1]) L)))
      end.
Proof.
  apply (LevenbergMarquardt_step_all_trainable Examples.Tensor Examples.tsub_same
           Examples.flat_id Examples.unbind_1d unit Examples.model_id
           Examples.modjac_trainable Examples.cholesky_diag Examples.cholesky_solve_diag
           Examples.rational_sqrt tt (Some (Optim.Single [Examples.q 4 1]))
           [Examples.param [1%nat] [0] true] [Examples.q 4 1]).
  - discriminate.
  - reflexivity.
  - repeat constructor.
  - qc_decide.
  - reflexivity.
  - reflexivity.
  - intros L. reflexivity.
Defined.

Lemma GaussNewton_step_zero_residual_witness :
  exists self,
    Optim.run Optim.GaussNewton_init [Examples.param [1%nat] [Examples.q 4 1] true]
    = ([Examples.param [1%nat] [Examples.q 4 1] true], Ok self) /\
    Forall (fun e => e = 0)
      (OptimSpec.gn_delta Examples.pinverse_diag
         (Examples.modjac_trainable [Examples.param [1%nat] [Examples.q 4 1] true] tt) [0]) /\
    Optim.run (Optim.GaussNewton_step Examples.Tensor Examples.tsub_same
                 Examples.flat_id Examples.unbind_1d unit Examples.model_id
                 Examples.modjac_trainable Examples.pinverse_diag Examples.rational_sqrt
                 self tt (Some (Optim.Single [Examples.q 4 1])))
              [Examples.param [1%nat] [Examples.q 4 1] true]
    = ([Examples.param [1%nat] [Examples.q 4 1] true], Ok 0).
Proof.
  apply (GaussNewton_step_zero_residual Examples.Tensor Examples.tsub_same
           Examples.flat_id Examples.unbind_1d unit Examples.model_id
           Examples.modjac_trainable Examples.pinverse_diag Examples.rational_sqrt
           tt (Some (Optim.Single [Examples.q 4 1]))
           [Examples.param [1%nat] [Examples.q 4 1] true] [0]).
  - discriminate.
  - repeat constructor.
  - qc_decide.
  - repeat constructor.
  - qc_decide.
  - repeat constructor.
  - reflexivity.
  - reflexivity.
  - reflexivity.
  - reflexivity.
Defined.

(** ** What a step leaves in place *)

Section relates.
Variable R : Optim.Store -> Optim.Store -> Prop.
Hypothesis R_refl : forall s, R s s.
Hypothesis R_trans : forall s1 s2 s3, R s1 s2 -> R s2 s3 -> R s1 s3.

Lemma relates_ret {A} (a : A) : relates R (mret a).
Proof. intros s. apply R_refl. Qed.

Lemma relates_lift {A} (r : Result A) : relates R (Optim.lift r).
Proof. intros s. apply R_refl. Qed.

Lemma relates_get : relates R Optim.get.
Proof. intros s. apply R_refl. Qed.

Lemma relates_bind {A B} (m : Optim.M A) (f : A -> Optim.M B) :
  relates R m -> (forall a, relates R (f a)) -> relates R (m ≫= f).
Proof.
  intros Hm Hf s. unfold mbind, Optim.M_bind. cbn [Optim.run]. specialize (Hm s).
  destruct (Optim.run m s) as [s' [a|e]]; cbn [fst] in *; [|exact Hm].
  eapply R_trans; [exact Hm|]. apply Hf.
Qed.

Lemma relates_for {A} (l : list A) (body : A -> Optim.M unit) :
  (forall a, relates R (body a)) -> relates R (Optim.for_ l body).
Proof.
  intros Hb. induction l as [|a l IH]; cbn [Optim.for_].
  - apply relates_ret.
  - apply relates_bind; [apply Hb|]. intros _. exact IH.
Qed.

Lemma relates_deref i : relates R (Optim.deref i).
Proof.
  unfold Optim.deref. apply relates_bind; [apply relates_get|]. intros s.
  apply relates_lift.
Qed.

Lemma relates_trainable_numels params : relates R (Optim.trainable_numels params).
Proof.
  unfold Optim.trainable_numels. apply relates_bind; [apply relates_get|]. intros s.
  apply relates_bind; [apply relates_lift|]. intros ps. apply relates_ret.
Qed.

(** Every store change of a step is an [add_]: a relation that each [add_]
    respects holds of a whole step of either optimizer. *)
Hypothesis R_add : forall i d, relates R (Optim.add_ i d).

Lemma relates_update params D : relates R (Optim.update params D).
Proof.
  unfold Optim.update. apply relates_for. intros [i d].
  apply relates_bind; [apply relates_deref|]. intros p.
  destruct (Optim.requires_grad p); [apply R_add|apply relates_ret].
Qed.

Variable Tensor : Type.
Variable tsub : Tensor -> Tensor -> Result Tensor.
Variable flat : Tensor -> list Qc.
Variable unbind : Tensor -> Result (list Tensor).
Variable Inputs : Type.
Variable model : Optim.Store -> Inputs -> Optim.Value Tensor.
Variable modjac : Optim.Store -> Inputs -> Optim.Matrix.
Variable pinverse : Optim.Matrix -> Optim.Matrix.
Variable cholesky : Optim.Matrix -> option Optim.Matrix.
Variable cholesky_solve : Optim.Matrix -> Optim.Matrix -> Optim.Matrix.
Variable sqrt : Qc -> Qc.

Lemma relates_residual inputs targets :
  relates R (Optim._residual Tensor tsub flat unbind Inputs model inputs targets).
Proof.
  unfold Optim._residual. apply relates_bind; [apply relates_get|]. intros s.
  destruct targets as [[t|ts]|]; destruct (model s inputs) as [o|os];
    repeat first [apply relates_lift | apply relates_ret
                 | apply relates_bind; [|intros ?]].
Qed.

Lemma relates_GaussNewton_step self inputs targets :
  relates R (Optim.GaussNewton_step Tensor tsub flat unbind Inputs model modjac
               pinverse sqrt self inputs targets).
Proof.
  unfold Optim.GaussNewton_step.
  apply relates_bind; [apply relates_residual|]. intros E.
  apply relates_bind.
  - apply relates_for. intros pg.
    apply relates_bind; [apply relates_trainable_numels|]. intros numels.
    apply relates_bind; [apply relates_get|]. intros s. cbv zeta.
    repeat (apply relates_bind; [apply relates_lift|]; intros ?).
    apply relates_update.
  - intros _. apply relates_bind; [apply relates_residual|]. intros E'.
    apply relates_ret.
Qed.

Lemma relates_LevenbergMarquardt_step self inputs targets :
  relates R (Optim.LevenbergMarquardt_step Tensor tsub flat unbind Inputs model modjac
               cholesky cholesky_solve sqrt self inputs targets).
Proof.
  unfold Optim.LevenbergMarquardt_step.
  apply relates_bind; [apply relates_residual|]. intros E.
  apply relates_bind.
  - apply relates_for. intros pg.
    apply relates_bind; [apply relates_trainable_numels|]. intros numels.
    apply relates_bind; [apply relates_get|]. intros s. cbv zeta.
    repeat (apply relates_bind; [apply relates_lift|]; intros ?).
    apply relates_update.
  - intros _. apply relates_bind; [apply relates_residual|]. intros E'.
    apply relates_ret.
Qed.
End relates.

Lemma same_layout_refl s : same_layout s s.
Proof. by split; [|split]. Qed.

Lemma same_layout_trans s1 s2 s3 :
  same_layout s1 s2 -> same_layout s2 s3 -> same_layout s1 s3.
Proof.
  intros (Hs & Hg & Hw) (Hs' & Hg' & Hw'). split; [congruence|].
  split; [congruence|auto].
Qed.

Lemma same_layout_add_ i d : relates same_layout (Optim.add_ i d).
Proof.
  intros s.
  unfold Optim.add_, Optim.deref, mbind, Optim.M_bind, mret, Optim.M_ret,
    Optim.get, Optim.lift, index.
  unfold Optim.Store in *.
  cbn beta iota delta [Optim.run fst].
  destruct (s !! i) as [p|] eqn:Hp; [|apply same_layout_refl].
  cbn beta iota delta [Optim.run fst].
  case_bool_decide as Hd; [|apply same_layout_refl].
  cbn beta iota delta [Optim.run fst].
  split; [|split].
  - rewrite list_fmap_insert. apply list_insert_id. by rewrite list_lookup_fmap, Hp.
  - rewrite list_fmap_insert. apply list_insert_id. by rewrite list_lookup_fmap, Hp.
  - intros Hw. apply Forall_insert; [exact Hw|].
    pose proof (Forall_lookup_1 _ _ _ _ Hw Hp) as Hlen.
    unfold Optim.numel in *. cbn in *. rewrite length_zip_with. lia.
Qed.

Section layout.
Variable Tensor : Type.
Variable tsub : Tensor -> Tensor -> Result Tensor.
Variable flat : Tensor -> list Qc.
Variable unbind : Tensor -> Result (list Tensor).
Variable Inputs : Type.
Variable model : Optim.Store -> Inputs -> Optim.Value Tensor.
Variable modjac : Optim.Store -> Inputs -> Optim.Matrix.
Variable pinverse : Optim.Matrix -> Optim.Matrix.
Variable cholesky : Optim.Matrix -> option Optim.Matrix.
Variable cholesky_solve : Optim.Matrix -> Optim.Matrix -> Optim.Matrix.
Variable sqrt : Qc -> Qc.

(** X4. A step of either optimizer, returning or raising, leaves the model
    with the same parameters in the same order: each keeps its shape and
    its [requires_grad] flag, and when every tensor had as many elements as
    its shape says before the step, so it has after. *)
Theorem step_keeps_layout (gn : Optim.GaussNewton) (lm : Optim.LevenbergMarquardt)
    (inputs : Inputs) (targets : option (Optim.Value Tensor)) (s : Optim.Store) :
  same_layout s
    (fst (Optim.run (Optim.GaussNewton_step Tensor tsub flat unbind Inputs model modjac
                       pinverse sqrt gn inputs targets) s)) /\
  same_layout s
    (fst (Optim.run (Optim.LevenbergMarquardt_step Tensor tsub flat unbind Inputs model
                       modjac cholesky cholesky_solve sqrt lm inputs targets) s)).
Proof.
  split.
  - apply (relates_GaussNewton_step same_layout same_layout_refl same_layout_trans
             same_layout_add_).
  - apply (relates_LevenbergMarquardt_step same_layout same_layout_refl
             same_layout_trans same_layout_add_).
Qed.
End layout.

(** ** When the R3 spline raises *)












Lemma tangents_few_points (row : list vec) (x : list Qc) :
  (length row <= 1)%nat -> CSpline.tangents row x = Raise IndexError.
Proof.
  intros Hrow. unfold CSpline.tangents.
  replace (drop 1 row) with (@nil vec); [done|].
  symmetry. apply drop_ge. lia.
Qed.

(** X6. With fewer than two control points there is no segment: [CSplineR3]
    returns no samples on any step, and with a single control point and a
    non-zero step the exception is the [IndexError] of the first tangent
    [m[..., [0], :]] (of [x[0, 1:]] when the batch is empty). *)
Theorem CSplineR3_few_points (points : CSpline.Points) (steps : Qc) :
  CSpline.wf_points points -> (CSpline.num_p points <= 1)%nat ->
  (CSpline.CSplineR3 points steps = Raise IndexError \/
   CSpline.CSplineR3 points steps = Raise RuntimeError) /\
  (CSpline.num_p points = 1%nat -> steps <> 0 ->
   CSpline.CSplineR3 points steps = Raise IndexError).
Proof.
  destruct points as [B N rows]. unfold CSpline.wf_points.
  cbn [CSpline.batch_size CSpline.num_p CSpline.rows].
  intros [HB Hrows] HN. unfold CSpline.CSplineR3.
  cbn [CSpline.batch_size CSpline.num_p CSpline.rows].
  assert (Hrest : forall xs_row : list Qc,
    (let xs := replicate B xs_row in
     let x_row := arange_n N in
     let x := replicate B x_row in
     m ← mapR (fun '(row, xb) => CSpline.tangents row xb) (zip rows x);
     x0 ← index x 0;
     xs0 ← index xs 0;
     let idxs := map (searchsorted (drop 1 x0)) xs0 in
     mapR (fun '(row, mb, xb, xsb) =>
             mapR (fun '(xq, idx) => CSpline.interpoint row mb xb xq idx) (zip xsb idxs))
          (zip (zip (zip rows m) x) xs)) = Raise IndexError).
  { intros xs_row. cbv zeta. destruct rows as [|row rows].
    - cbn in HB. subst B. reflexivity.
    - destruct B as [|B]; [done|]. cbn [replicate zip zip_with].
      rewrite (mapR_Raise_head _ _ _ IndexError); [done|].
      apply tangents_few_points. apply Forall_inv in Hrows. lia. }
  split.
  - destruct (arange 0 (Qc_of_Z (Z.of_nat N - 1) + steps) steps) as [xs_row|e] eqn:Ha.
    + left. apply Hrest.
    + right. unfold arange in Ha.
      destruct (bool_decide (steps = 0)); [by injection Ha as <-|].
      destruct (bool_decide _); [by injection Ha as <-|discriminate].
  - intros -> Hs. unfold arange. rewrite bool_decide_eq_false_2 by done.
    replace ((Qc_of_Z (Z.of_nat 1 - 1) + steps - 0) / steps) with 1.
    2:{ replace (Qc_of_Z (Z.of_nat 1 - 1)) with 0 by qc_decide. by field. }
    rewrite bool_decide_eq_false_2 by (by intros H). apply Hrest.
Qed.

Lemma CSplineR3_few_points_witness :
  (CSpline.CSplineR3 {| CSpline.batch_size := 1; CSpline.num_p := 1;
                        CSpline.rows := [[ [Examples.q 1 1; Examples.q 2 1; Examples.q 3 1] ]] |}
                     (Examples.q 1 10) = Raise IndexError \/
   CSpline.CSplineR3 {| CSpline.batch_size := 1; CSpline.num_p := 1;
                        CSpline.rows := [[ [Examples.q 1 1; Examples.q 2 1; Examples.q 3 1] ]] |}
                     (Examples.q 1 10) = Raise RuntimeError) /\
  CSpline.CSplineR3 {| CSpline.batch_size := 1; CSpline.num_p := 1;
                       CSpline.rows := [[ [Examples.q 1 1; Examples.q 2 1; Examples.q 3 1] ]] |}
                    (Examples.q 1 10) = Raise IndexError.
Proof.
  pose proof (CSplineR3_few_points
                {| CSpline.batch_size := 1; CSpline.num_p := 1;
                   CSpline.rows := [[ [Examples.q 1 1; Examples.q 2 1; Examples.q 3 1] ]] |}
                (Examples.q 1 10)) as H.
  destruct H as [H1 H2].
  - split; [reflexivity|]. repeat constructor.
  - simpl. lia.
  - split; [exact H1|]. apply H2; [reflexivity|]. vm_compute. discriminate.
Defined.

(** ** Tangents and linear precision of the R3 spline *)

Lemma nth_zip_with_Qc (f : Qc -> Qc -> Qc) (u v : vec) (c : nat) :
  (c < length u)%nat -> (c < length v)%nat ->
  nth c (zip_with f u v) 0 = f (nth c u 0) (nth c v 0).
Proof.
  intros [a Ha]%lookup_lt_is_Some [b Hb]%lookup_lt_is_Some.
  rewrite !nth_lookup, lookup_zip_with, Ha, Hb. done.
Qed.

Lemma nth_map_Qc (f : Qc -> Qc) (v : vec) (c : nat) :
  (c < length v)%nat -> nth c (map f v) 0 = f (nth c v 0).
Proof.
  intros [a Ha]%lookup_lt_is_Some. rewrite !nth_lookup, list_lookup_fmap, Ha. done.
Qed.

Lemma coord_lookup (row : list vec) (k c : nat) (p : vec) :
  row !! k = Some p -> coord row k c = nth c p 0.
Proof. intros H. unfold coord. by rewrite (nth_lookup row), H. Qed.

(** The first differences [points[1:] - points[:-1]], divided by the unit
    spacing of the breakpoints. *)
Lemma differences_lookup (row : list vec) (N D k : nat) :
  length row = N -> Forall (fun v : vec => length v = D) row -> (k + 1 < N)%nat ->
  exists v : vec,
    zip_with vdivs (zip_with vsub (drop 1 row) (py_init row))
      (zip_with Qcminus (drop 1 (arange_n N)) (py_init (arange_n N))) !! k = Some v /\
    length v = D /\
    forall c, (c < D)%nat -> nth c v 0 = coord row (k + 1) c - coord row k c.
Proof.
  intros Hlen Hdim Hk.
  destruct (lookup_lt_is_Some_2 row k) as [p Hp]; [lia|].
  destruct (lookup_lt_is_Some_2 row (k + 1)) as [p' Hp']; [lia|].
  pose proof (Forall_lookup_1 _ _ _ _ Hdim Hp) as Hpl.
  pose proof (Forall_lookup_1 _ _ _ _ Hdim Hp') as Hpl'. cbn in Hpl, Hpl'.
  exists (vdivs (vsub p' p) 1). split; [|split].
  - rewrite !lookup_zip_with, !lookup_drop. unfold py_init.
    rewrite !lookup_take_lt by (rewrite ?length_arange_n; lia).
    replace (1 + k)%nat with (k + 1)%nat by lia.
    rewrite Hp, Hp', !arange_n_lookup by lia. cbn. do 2 f_equal.
    rewrite Nat.add_1_r, Qc_of_nat_S. ring.
  - unfold vdivs, vsub. rewrite length_map, length_zip_with. lia.
  - intros c Hc. rewrite (coord_lookup _ _ _ _ Hp), (coord_lookup _ _ _ _ Hp').
    unfold vdivs, vsub. rewrite nth_map_Qc by (rewrite length_zip_with; lia).
    rewrite nth_zip_with_Qc by lia. unfold Qcdiv. 
    replace (/ 1) with 1 by qc_decide. ring.
Qed.

(** The tangents of a polyline: one-sided differences at the two ends,
    half the difference of the two neighbours in between. *)
Lemma tangents_lookup (row : list vec) (N D : nat) :
  length row = N -> (2 <= N)%nat -> Forall (fun v : vec => length v = D) row ->
  exists m, CSpline.tangents row (arange_n N) = Ok m /\ length m = N /\
    Forall (fun v : vec => length v = D) m /\
    forall k c, (k < N)%nat -> (c < D)%nat ->
      coord m k c =
        if bool_decide (k = 0)%nat then coord row 1 c - coord row 0 c
        else if bool_decide (k = N - 1)%nat
             then coord row (N - 1) c - coord row (N - 2) c
             else (coord row (k + 1) c - coord row (k - 1) c) / Qc_of_Z 2.
Proof.
  intros Hlen HN Hdim.
  destruct (tangents_Ok row N D Hlen HN Hdim) as (m & Hm & Hml & Hmd).
  exists m. split; [exact Hm|]. split; [exact Hml|]. split; [exact Hmd|].
  unfold CSpline.tangents in Hm. cbv zeta in Hm.
  set (m1 := zip_with vdivs _ _) in Hm.
  assert (Hm1l : length m1 = (N - 1)%nat).
  { unfold m1. rewrite !length_zip_with, !length_drop, !length_py_init, length_arange_n. lia. }
  destruct (differences_lookup row N D 0 Hlen Hdim ltac:(lia)) as (v0 & Hv0 & Hv0l & Hv0c).
  destruct (differences_lookup row N D (N - 2) Hlen Hdim ltac:(lia)) as (vl & Hvl & Hvll & Hvlc).
  fold m1 in Hv0, Hvl.
  rewrite (index_Some (A:=vec) m1 0 v0 Hv0) in Hm. unfold index_last in Hm.
  rewrite Hm1l in Hm. replace (N - 1 - 1)%nat with (N - 2)%nat in Hm by lia.
  rewrite Hvl in Hm. cbn [mbind Result_bind] in Hm. injection Hm as <-.
  intros k c Hk Hc. case_bool_decide as Hk0; [|case_bool_decide as HkN].
  - subst k. rewrite (coord_lookup _ 0 c v0) by done. by apply Hv0c.
  - subst k. rewrite (coord_lookup _ (N - 1) c vl).
    + rewrite Hvlc by done. by replace (N - 2 + 1)%nat with (N - 1)%nat by lia.
    + rewrite lookup_cons_ne_0 by lia. rewrite lookup_app_r.
      * rewrite length_map, length_zip_with, length_drop, length_py_init, Hm1l.
        replace (Nat.pred (N - 1) - (N - 1 - 1) `min` (N - 1 - 1))%nat with 0%nat by lia.
        done.
      * rewrite length_map, length_zip_with, length_drop, length_py_init, Hm1l. lia.
  - destruct (differences_lookup row N D k Hlen Hdim ltac:(lia)) as (vk & Hvk & Hvkl & Hvkc).
    destruct (differences_lookup row N D (k - 1) Hlen Hdim ltac:(lia))
      as (vp & Hvp & Hvpl & Hvpc).
    fold m1 in Hvk, Hvp.
    rewrite (coord_lookup _ k c (vdivs (vadd vk vp) (Qc_of_Z 2))).
    + unfold vdivs, vadd. rewrite nth_map_Qc by (rewrite length_zip_with; lia).
      rewrite nth_zip_with_Qc by lia. rewrite Hvkc, Hvpc by done.
      replace (k - 1 + 1)%nat with k by lia. unfold Qcdiv. ring.
    + rewrite lookup_cons_ne_0 by lia. rewrite lookup_app_l.
      * rewrite list_lookup_fmap, lookup_zip_with, lookup_drop. unfold py_init.
        rewrite lookup_take_lt by lia.
        replace (1 + Nat.pred k)%nat with k by lia.
        replace (Nat.pred k) with (k - 1)%nat by lia.
        by rewrite Hvk, Hvp.
      * rewrite length_map, length_zip_with, length_drop, length_py_init, Hm1l. lia.
Qed.

(** X7. The tangents that [CSplineR3] gives a polyline of [N >= 2] points are
    one-sided differences at the two end points and central differences
    (half the difference of the two neighbours) at the points between, in
    every coordinate. *)
Theorem tangents_central_difference (row : list vec) (N D : nat) :
  length row = N -> (2 <= N)%nat -> Forall (fun v : vec => length v = D) row ->
  exists m, CSpline.tangents row (arange_n N) = Ok m /\ length m = N /\
    forall c, (c < D)%nat ->
      coord m 0 c = coord row 1 c - coord row 0 c /\
      coord m (N - 1) c = coord row (N - 1) c - coord row (N - 2) c /\
      forall k, (1 <= k)%nat -> (k + 1 < N)%nat ->
        coord m k c = (coord row (k + 1) c - coord row (k - 1) c) / Qc_of_Z 2.
Proof.
  intros Hlen HN Hdim.
  destruct (tangents_lookup row N D Hlen HN Hdim) as (m & Hm & Hml & _ & Hc).
  exists m. split; [exact Hm|]. split; [exact Hml|]. intros c HcD. split; [|split].
  - by rewrite (Hc 0%nat c) by (lia || done).
  - rewrite (Hc (N - 1)%nat c) by (lia || done).
    rewrite bool_decide_eq_false_2 by lia. by rewrite bool_decide_eq_true_2.
  - intros k Hk1 Hk2. rewrite (Hc k c) by (lia || done).
    by rewrite !bool_decide_eq_false_2 by lia.
Qed.

Lemma tangents_central_difference_witness :
  exists m, CSpline.tangents [[Examples.q 0 1]; [Examples.q 1 2]; [Examples.q 5 1]]
                             (arange_n 3) = Ok m /\ length m = 3%nat /\
    forall c, (c < 1)%nat ->
      coord m 0 c = coord [[Examples.q 0 1]; [Examples.q 1 2]; [Examples.q 5 1]] 1 c
                    - coord [[Examples.q 0 1]; [Examples.q 1 2]; [Examples.q 5 1]] 0 c /\
      coord m (3 - 1) c
      = coord [[Examples.q 0 1]; [Examples.q 1 2]; [Examples.q 5 1]] (3 - 1) c
        - coord [[Examples.q 0 1]; [Examples.q 1 2]; [Examples.q 5 1]] (3 - 2) c /\
      forall k, (1 <= k)%nat -> (k + 1 < 3)%nat ->
        coord m k c
        = (coord [[Examples.q 0 1]; [Examples.q 1 2]; [Examples.q 5 1]] (k + 1) c
           - coord [[Examples.q 0 1]; [Examples.q 1 2]; [Examples.q 5 1]] (k - 1) c)
          / Qc_of_Z 2.
Proof.
  apply (tangents_central_difference _ 3 1).
  - reflexivity.
  - lia.
  - repeat constructor.
Defined.

(** *** Linear precision *)







(** ** The shape of the SE(3) B-spline curve *)

Lemma smul_1 (v : vec) : smul 1 v = v.
Proof.
  unfold smul. rewrite <- (map_id v) at 2. apply map_ext. intros a. ring.
Qed.

Lemma weights_at_0 :
  BSplineSpec.weights 0 = [Qc_of_Z 5 / Qc_of_Z 6; Qc_of_Z 1 / Qc_of_Z 6; 0].
Proof. qc_decide. Qed.

Lemma weights_at_1 :
  BSplineSpec.weights 1 = [1; Qc_of_Z 5 / Qc_of_Z 6; Qc_of_Z 1 / Qc_of_Z 6].
Proof. qc_decide. Qed.

Lemma vmuls_1 (v : vec) : vmuls v 1 = v.
Proof. by rewrite vmuls_smul, smul_1. Qed.

Lemma Forall_padded {A} (P : A -> Prop) (row : list A) :
  Forall P row -> Forall P (BSplineSpec.padded row).
Proof.
  intros H. unfold BSplineSpec.padded.
  apply Forall_app. split; [by apply Forall_take|].
  apply Forall_app. split; [done|by apply Forall_drop].
Qed.

Lemma padded_lookup_0 {A} (row : list A) (a : A) :
  row !! 0%nat = Some a ->
  BSplineSpec.padded row !! 0%nat = Some a /\ BSplineSpec.padded row !! 1%nat = Some a.
Proof.
  intros H. unfold BSplineSpec.padded. rewrite (take_1_lookup _ _ H).
  destruct row as [|a0 row]; [done|]. injection H as ->. done.
Qed.

Lemma padded_lookup_S {A} (row : list A) (i : nat) (a : A) :
  row !! i = Some a -> BSplineSpec.padded row !! S i = Some a.
Proof.
  intros H. pose proof (lookup_lt_Some _ _ _ H) as Hlt. unfold BSplineSpec.padded.
  rewrite lookup_app_r by (rewrite length_take; lia).
  rewrite length_take. replace (S i - 1 `min` length row)%nat with i by lia.
  by rewrite lookup_app_l.
Qed.

Lemma padded_lookup_last {A} (row : list A) (a : A) :
  row !! (length row - 1)%nat = Some a ->
  BSplineSpec.padded row !! (length row + 1)%nat = Some a.
Proof.
  intros H. pose proof (lookup_lt_Some _ _ _ H) as Hlt.
  unfold BSplineSpec.padded. rewrite (drop_last_lookup _ _ H).
  rewrite lookup_app_r by (rewrite length_take; lia).
  rewrite lookup_app_r by (rewrite length_take; lia).
  rewrite length_take. replace (length row + 1 - 1 `min` length row - length row)%nat
    with 0%nat by lia. done.
Qed.

Lemma forallb_Forall {A} (f : A -> bool) (l : list A) :
  Forall (fun a => f a = true) l -> forallb f l = true.
Proof. induction 1 as [|a l Ha _ IH]; cbn; [done|]. by rewrite Ha, IH. Qed.

Section bspline_curve.
Variable Inv : BSpline.Pose -> BSpline.Pose.
Variable Mul : BSpline.Pose -> BSpline.Pose -> BSpline.Pose.
Variable Log : BSpline.Pose -> vec.
Variable Exp : vec -> BSpline.Pose.

(** The poses of the curve, window by window and time by time. *)
Lemma BSplineSE3_poses (input_poses : BSpline.Poses) (time : BSpline.Time) :
  BSpline.wf_poses input_poses -> BSpline.wf_time time ->
  BSpline.is_SE3 input_poses = true ->
  BSpline.shape0 time = 1%nat -> BSpline.shape1 time = 1%nat ->
  (2 <= BSpline.point_num input_poses)%nat -> (1 <= BSpline.shape2 time)%nat ->
  exists out,
    BSpline.BSplineSE3 Inv Mul Log Exp input_poses time = Ok out /\
    length out = BSpline.batch_size input_poses /\
    forall b row, BSpline.rows input_poses !! b = Some row ->
      length (BSplineSpec.padded row) = (BSpline.point_num input_poses + 2)%nat /\
      exists orow, out !! b = Some orow /\
        length orow = ((BSpline.point_num input_poses - 1) * BSpline.shape2 time)%nat /\
        forall i k u P0 P1 P2 P3,
          BSpline.values time !! k = Some u ->
          BSplineSpec.padded row !! i = Some P0 ->
          BSplineSpec.padded row !! (i + 1)%nat = Some P1 ->
          BSplineSpec.padded row !! (i + 2)%nat = Some P2 ->
          BSplineSpec.padded row !! (i + 3)%nat = Some P3 ->
          orow !! (i * BSpline.shape2 time + k)%nat
            = Some (BSplineSpec.pose Inv Mul Log Exp P0 P1 P2 P3 u).
Proof.
  destruct input_poses as [B N rows]. destruct time as [s0 s1 K us].
  unfold BSpline.wf_poses, BSpline.wf_time.
  cbn [BSpline.rows BSpline.point_num BSpline.shape0
    BSpline.shape1 BSpline.shape2 BSpline.values BSpline.batch_size].
  intros [HB Hrows] Hus HSE3 -> -> HN HK.
  replace (1 * 1 * K)%nat with K in Hus by lia.
  unfold BSpline.BSplineSE3. cbn [BSpline.rows BSpline.point_num BSpline.shape0
    BSpline.shape1 BSpline.shape2 BSpline.values BSpline.batch_size].
  rewrite HSE3. cbn [py_assert mbind Result_bind].
  destruct (select_Ok N rows 0 Hrows) as (first & -> & Hfl & Hf); [lia|].
  destruct (select_Ok N rows (N - 1) Hrows) as (last & -> & Hll & Hl); [lia|].
  cbn [mbind Result_bind].
  set (paddedl := zip_with _ (zip_with _ first rows) last).
  assert (Hpad : forall b row, rows !! b = Some row ->
            paddedl !! b = Some (BSplineSpec.padded row) /\ length row = N).
  { intros b row Hrow.
    pose proof (Forall_lookup_1 _ _ _ _ Hrows Hrow) as Hrl. cbn in Hrl.
    destruct (lookup_lt_is_Some_2 first b) as [f Hfb].
    { rewrite Hfl. eapply lookup_lt_Some; eauto. }
    destruct (lookup_lt_is_Some_2 last b) as [l Hlb].
    { rewrite Hll. eapply lookup_lt_Some; eauto. }
    destruct (Hf b f Hfb) as (row1 & Hrow1 & Hf0).
    destruct (Hl b l Hlb) as (row2 & Hrow2 & Hl0).
    assert (row1 = row) as -> by congruence. assert (row2 = row) as -> by congruence.
    split; [|done]. unfold paddedl.
    rewrite lookup_zip_with, lookup_zip_with, Hfb, Hrow, Hlb. cbn.
    unfold BSplineSpec.padded. rewrite (take_1_lookup _ _ Hf0).
    rewrite <- Hrl in Hl0. rewrite (drop_last_lookup _ _ Hl0).
    reflexivity. }
  assert (Hpl : length paddedl = B).
  { unfold paddedl. rewrite !length_zip_with. lia. }
  set (w := map (fun u => matvec BSpline.B (powers u)) us).
  destruct (mapR_Ok_lookup
    (BSpline.interPoses_row Inv Mul Log Exp (N + 2)
       (map (fun wk => nth 0 wk 0) w) (map (fun wk => nth 1 wk 0) w)
       (map (fun wk => nth 2 wk 0) w))
    (fun b grid => forall row, rows !! b = Some row ->
       length grid = (N - 1)%nat /\
       forall i g, grid !! i = Some g ->
         length g = length us /\
         forall k u P0 P1 P2 P3,
           us !! k = Some u -> BSplineSpec.padded row !! i = Some P0 ->
           BSplineSpec.padded row !! (i + 1)%nat = Some P1 ->
           BSplineSpec.padded row !! (i + 2)%nat = Some P2 ->
           BSplineSpec.padded row !! (i + 3)%nat = Some P3 ->
           g !! k = Some (BSplineSpec.pose Inv Mul Log Exp P0 P1 P2 P3 u))
    paddedl) as (prod & -> & Hprodl & Hprod).
  { intros b prow Hprow.
    destruct (lookup_lt_is_Some_2 rows b) as [row Hrow].
    { rewrite HB, <- Hpl. eapply lookup_lt_Some; eauto. }
    destruct (Hpad b row Hrow) as [Hp Hrl].
    assert (prow = BSplineSpec.padded row) as -> by congruence.
    assert (Hplen : length (BSplineSpec.padded row) = (N + 2)%nat).
    { unfold BSplineSpec.padded. rewrite !length_app, length_take, length_drop. lia. }
    destruct (interPoses_row_Ok Inv Mul Log Exp N us _ HN Hplen) as (grid & Hgrid & Hgl & Hg).
    exists grid. split; [exact Hgrid|].
    intros row' Hrow'. assert (row' = row) as -> by congruence. done. }
  cbn [mbind Result_bind].
  rewrite bool_decide_eq_false_2 by (intros Hz; apply Nat.eq_mul_0 in Hz; lia).
  eexists. split; [reflexivity|]. split; [by rewrite length_map, Hprodl|].
  intros b row Hrow. destruct (Hpad b row Hrow) as [Hp Hrl].
  split. { unfold BSplineSpec.padded. rewrite !length_app, length_take, length_drop. lia. }
  destruct (lookup_lt_is_Some_2 prod b) as [grid Hgrid].
  { rewrite Hprodl. eapply lookup_lt_Some; eauto. }
  destruct (Hprod b grid Hgrid row Hrow) as [Hgl Hg].
  assert (Hu : Forall (fun g : list BSpline.Pose => length g = K) grid).
  { apply Forall_lookup_2. intros i g Hig. destruct (Hg i g Hig) as [-> _]. done. }
  exists (concat grid). split; [by rewrite list_lookup_fmap, Hgrid|].
  split; [by rewrite (length_concat_uniform K), Hgl|].
  intros i k u P0 P1 P2 P3 Hk H0 H1 H2 H3.
  assert (Hi : (i < N - 1)%nat).
  { apply lookup_lt_Some in H3. unfold BSplineSpec.padded in H3.
    rewrite !length_app, length_take, length_drop in H3. lia. }
  destruct (lookup_lt_is_Some_2 grid i) as [g Hig]; [lia|].
  destruct (Hg i g Hig) as [_ Hgk].
  apply (lookup_concat_uniform K grid i k g); [done|done|].
  by apply (Hgk k u P0 P1 P2 P3).
Qed.

Lemma pose_vmuls (P0 P1 P2 P3 : BSpline.Pose) (u : Qc) (w0 w1 w2 : Qc) :
  BSplineSpec.weights u = [w0; w1; w2] ->
  BSplineSpec.pose Inv Mul Log Exp P0 P1 P2 P3 u
  = Mul (Mul (Mul P0 (Exp (vmuls (Log (Mul (Inv P0) P1)) w0)))
             (Exp (vmuls (Log (Mul (Inv P1) P2)) w1)))
        (Exp (vmuls (Log (Mul (Inv P2) P3)) w2)).
Proof.
  intros Hw. unfold BSplineSpec.pose, BSplineSpec.blend. cbv zeta. rewrite Hw. cbn [nth].
  by rewrite !vmuls_smul.
Qed.

Lemma pose_vmuls_any (P0 P1 P2 P3 : BSpline.Pose) (u : Qc) :
  exists w0 w1 w2,
    BSplineSpec.pose Inv Mul Log Exp P0 P1 P2 P3 u
    = Mul (Mul (Mul P0 (Exp (vmuls (Log (Mul (Inv P0) P1)) w0)))
               (Exp (vmuls (Log (Mul (Inv P1) P2)) w1)))
          (Exp (vmuls (Log (Mul (Inv P2) P3)) w2)).
Proof.
  eexists _, _, _. apply pose_vmuls. reflexivity.
Qed.

(** X9. A trajectory of equal control poses stays where it is: when every
    control pose is [P] and the backend has [P * Exp(Log(P.Inv() * P) * w)
    = P], every pose of the curve is [P]. *)
Theorem BSplineSE3_constant (input_poses : BSpline.Poses) (time : BSpline.Time)
    (P : BSpline.Pose) :
  BSpline.wf_poses input_poses -> BSpline.wf_time time ->
  BSpline.shape0 time = 1%nat -> BSpline.shape1 time = 1%nat ->
  (2 <= BSpline.point_num input_poses)%nat -> (1 <= BSpline.shape2 time)%nat ->
  BSpline.unit_quaternion P = true ->
  Forall (Forall (fun p => p = P)) (BSpline.rows input_poses) ->
  (forall w, Mul P (Exp (vmuls (Log (Mul (Inv P) P)) w)) = P) ->
  exists out,
    BSpline.BSplineSE3 Inv Mul Log Exp input_poses time = Ok out /\
    length out = BSpline.batch_size input_poses /\
    Forall (fun orow =>
              length orow
              = ((BSpline.point_num input_poses - 1) * BSpline.shape2 time)%nat /\
              Forall (fun T => T = P) orow) out.
Proof.
  intros Hwf Hwt Hs0 Hs1 HN HK HP Hall Hlaw.
  assert (HSE3 : BSpline.is_SE3 input_poses = true).
  { unfold BSpline.is_SE3. apply forallb_Forall.
    eapply Forall_impl; [|exact Hall]. intros row Hrow. apply forallb_Forall.
    eapply Forall_impl; [|exact Hrow]. by intros p ->. }
  destruct (BSplineSE3_poses input_poses time Hwf Hwt HSE3 Hs0 Hs1 HN HK)
    as (out & Hout & Houtl & Hrows).
  exists out. split; [exact Hout|]. split; [exact Houtl|].
  destruct Hwf as [HB _]. unfold BSpline.wf_time in Hwt. rewrite Hs0, Hs1 in Hwt.
  set (N := BSpline.point_num input_poses) in *.
  set (K := BSpline.shape2 time) in *.
  apply Forall_lookup_2. intros b orow Hb.
  destruct (lookup_lt_is_Some_2 (BSpline.rows input_poses) b) as [row Hrow].
  { apply lookup_lt_Some in Hb. lia. }
  destruct (Hrows b row Hrow) as (Hpl & orow' & Horow' & Hol & Hposes).
  assert (orow' = orow) as -> by congruence.
  split; [exact Hol|]. apply Forall_lookup_2. intros n T Hn.
  assert (Hnlt : (n < (N - 1) * K)%nat) by (rewrite <- Hol; by eapply lookup_lt_Some).
  assert (Hi : (n / K < N - 1)%nat) by (apply Nat.Div0.div_lt_upper_bound; lia).
  assert (Hk : (n mod K < K)%nat) by (apply Nat.mod_upper_bound; lia).
  destruct (lookup_lt_is_Some_2 (BSpline.values time) (n mod K)) as [u Hu]; [lia|].
  pose proof (Forall_padded _ _ (Forall_lookup_1 _ _ _ _ Hall Hrow)) as Hpad.
  assert (Hlk : forall j, (j < N + 2)%nat -> BSplineSpec.padded row !! j = Some P).
  { intros j Hj. destruct (lookup_lt_is_Some_2 (BSplineSpec.padded row) j) as [p Hp]; [lia|].
    rewrite Hp. f_equal. exact (Forall_lookup_1 _ _ _ _ Hpad Hp). }
  pose proof (Hposes (n / K)%nat (n mod K)%nat u P P P P Hu
                (Hlk (n / K)%nat ltac:(lia)) (Hlk (n / K + 1)%nat ltac:(lia))
                (Hlk (n / K + 2)%nat ltac:(lia)) (Hlk (n / K + 3)%nat ltac:(lia)))
    as Hpose.
  replace (n / K * K + n mod K)%nat with n in Hpose
    by (rewrite (Nat.div_mod_eq n K) at 1; lia).
  rewrite Hn in Hpose. injection Hpose as ->.
  destruct (pose_vmuls_any P P P P u) as (w0 & w1 & w2 & ->).
  by rewrite !Hlaw.
Qed.

(** X10. The curve is continuous where two windows meet: on control poses of
    a set [G] on which the backend obeys the group laws
    [a * Exp(Log(a.Inv() * b)) = b] and [g * Exp(v * 0) = g], and which the
    products [g * Exp(v)] do not leave, the pose of window [i] at time 1 is
    the pose of window [i + 1] at time 0. *)
Theorem BSplineSE3_continuous (G : BSpline.Pose -> Prop) (input_poses : BSpline.Poses)
    (time : BSpline.Time) (k0 k1 : nat) :
  BSpline.wf_poses input_poses -> BSpline.wf_time time ->
  BSpline.is_SE3 input_poses = true ->
  BSpline.shape0 time = 1%nat -> BSpline.shape1 time = 1%nat ->
  (3 <= BSpline.point_num input_poses)%nat ->
  BSpline.values time !! k0 = Some 0 -> BSpline.values time !! k1 = Some 1 ->
  Forall (Forall G) (BSpline.rows input_poses) ->
  (forall g v, G g -> G (Mul g (Exp v))) ->
  (forall a b, G a -> G b -> Mul a (Exp (Log (Mul (Inv a) b))) = b) ->
  (forall g v, G g -> Mul g (Exp (vmuls v 0)) = g) ->
  exists out,
    BSpline.BSplineSE3 Inv Mul Log Exp input_poses time = Ok out /\
    forall b orow i, out !! b = Some orow ->
      (i + 2 < BSpline.point_num input_poses)%nat ->
      exists T, orow !! (i * BSpline.shape2 time + k1)%nat = Some T /\
                orow !! ((i + 1) * BSpline.shape2 time + k0)%nat = Some T.
Proof.
  intros Hwf Hwt HSE3 Hs0 Hs1 HN Hk0 Hk1 HG Hclosed Hexplog Hzero.
  assert (HK : (1 <= BSpline.shape2 time)%nat).
  { unfold BSpline.wf_time in Hwt. rewrite Hs0, Hs1 in Hwt.
    apply lookup_lt_Some in Hk0. lia. }
  destruct (BSplineSE3_poses input_poses time Hwf Hwt HSE3 Hs0 Hs1 ltac:(lia) HK)
    as (out & Hout & Houtl & Hrows).
  exists out. split; [exact Hout|]. intros b orow i Hb Hi.
  destruct Hwf as [HB _].
  set (N := BSpline.point_num input_poses) in *.
  set (K := BSpline.shape2 time) in *.
  destruct (lookup_lt_is_Some_2 (BSpline.rows input_poses) b) as [row Hrow].
  { apply lookup_lt_Some in Hb. lia. }
  destruct (Hrows b row Hrow) as (Hpl & orow' & Horow' & Hol & Hposes).
  assert (orow' = orow) as -> by congruence.
  pose proof (Forall_padded _ _ (Forall_lookup_1 _ _ _ _ HG Hrow)) as Hpad.
  assert (Hlk : forall j, (j < N + 2)%nat ->
            exists p, BSplineSpec.padded row !! j = Some p /\ G p).
  { intros j Hj. destruct (lookup_lt_is_Some_2 (BSplineSpec.padded row) j) as [p Hp]; [lia|].
    exists p. split; [done|]. exact (Forall_lookup_1 _ _ _ _ Hpad Hp). }
  destruct (Hlk i ltac:(lia)) as (P0 & HP0 & G0).
  destruct (Hlk (i + 1)%nat ltac:(lia)) as (P1 & HP1 & G1).
  destruct (Hlk (i + 2)%nat ltac:(lia)) as (P2 & HP2 & G2).
  destruct (Hlk (i + 3)%nat ltac:(lia)) as (P3 & HP3 & G3).
  destruct (Hlk (i + 4)%nat ltac:(lia)) as (P4 & HP4 & G4).
  pose proof (Hposes i k1 1 P0 P1 P2 P3 Hk1 HP0 HP1 HP2 HP3) as Hend.
  pose proof (Hposes (i + 1)%nat k0 0 P1 P2 P3 P4 Hk0 HP1) as Hstart.
  replace (i + 1 + 1)%nat with (i + 2)%nat in Hstart by lia.
  replace (i + 1 + 2)%nat with (i + 3)%nat in Hstart by lia.
  replace (i + 1 + 3)%nat with (i + 4)%nat in Hstart by lia.
  specialize (Hstart HP2 HP3 HP4).
  rewrite (pose_vmuls _ _ _ _ _ _ _ _ weights_at_1) in Hend.
  rewrite (pose_vmuls _ _ _ _ _ _ _ _ weights_at_0) in Hstart.
  rewrite vmuls_1, Hexplog in Hend by done.
  rewrite Hzero in Hstart by auto.
  eexists. split; [exact Hend|exact Hstart].
Qed.

(** X11. The curve stops short of the end poses: under the group laws on [G],
    with [g * Exp(Log(a.Inv() * a) * w) = g], the first window at time 0
    gives [P0 * Exp(Log(P0.Inv() * P1) / 6)] for the first two control poses
    and the last window at time 1 gives [Q0 * Exp(Log(Q0.Inv() * Q1) * 5/6)]
    for the last two. *)
Theorem BSplineSE3_endpoints (G : BSpline.Pose -> Prop) (input_poses : BSpline.Poses)
    (time : BSpline.Time) (k0 k1 : nat) :
  BSpline.wf_poses input_poses -> BSpline.wf_time time ->
  BSpline.is_SE3 input_poses = true ->
  BSpline.shape0 time = 1%nat -> BSpline.shape1 time = 1%nat ->
  (2 <= BSpline.point_num input_poses)%nat ->
  BSpline.values time !! k0 = Some 0 -> BSpline.values time !! k1 = Some 1 ->
  Forall (Forall G) (BSpline.rows input_poses) ->
  (forall g v, G g -> G (Mul g (Exp v))) ->
  (forall a b, G a -> G b -> Mul a (Exp (Log (Mul (Inv a) b))) = b) ->
  (forall g v, G g -> Mul g (Exp (vmuls v 0)) = g) ->
  (forall g a w, G g -> G a -> Mul g (Exp (vmuls (Log (Mul (Inv a) a)) w)) = g) ->
  exists out,
    BSpline.BSplineSE3 Inv Mul Log Exp input_poses time = Ok out /\
    forall b row orow P0 P1 Q0 Q1,
      BSpline.rows input_poses !! b = Some row -> out !! b = Some orow ->
      row !! 0%nat = Some P0 -> row !! 1%nat = Some P1 ->
      row !! (BSpline.point_num input_poses - 2)%nat = Some Q0 ->
      row !! (BSpline.point_num input_poses - 1)%nat = Some Q1 ->
      orow !! k0
      = Some (Mul P0 (Exp (vmuls (Log (Mul (Inv P0) P1)) (Qc_of_Z 1 / Qc_of_Z 6)))) /\
      orow !! ((BSpline.point_num input_poses - 2) * BSpline.shape2 time + k1)%nat
      = Some (Mul Q0 (Exp (vmuls (Log (Mul (Inv Q0) Q1)) (Qc_of_Z 5 / Qc_of_Z 6)))).
Proof.
  intros Hwf Hwt HSE3 Hs0 Hs1 HN Hk0 Hk1 HG Hclosed Hexplog Hzero Hself.
  assert (HK : (1 <= BSpline.shape2 time)%nat).
  { unfold BSpline.wf_time in Hwt. rewrite Hs0, Hs1 in Hwt.
    apply lookup_lt_Some in Hk0. lia. }
  destruct (BSplineSE3_poses input_poses time Hwf Hwt HSE3 Hs0 Hs1 HN HK)
    as (out & Hout & Houtl & Hrows).
  exists out. split; [exact Hout|].
  intros b row orow P0 P1 Q0 Q1 Hrow Hb HP0 HP1 HQ0 HQ1.
  destruct Hwf as [HB Hlen].
  pose proof (Forall_lookup_1 _ _ _ _ Hlen Hrow) as Hrl. cbn in Hrl.
  set (N := BSpline.point_num input_poses) in *.
  set (K := BSpline.shape2 time) in *.
  destruct (Hrows b row Hrow) as (Hpl & orow' & Horow' & Hol & Hposes).
  assert (orow' = orow) as -> by congruence.
  pose proof (Forall_lookup_1 _ _ _ _ HG Hrow) as HGrow. cbn in HGrow.
  pose proof (Forall_padded _ _ HGrow) as Hpad.
  assert (Hlk : forall j, (j < N + 2)%nat ->
            exists p, BSplineSpec.padded row !! j = Some p /\ G p).
  { intros j Hj. destruct (lookup_lt_is_Some_2 (BSplineSpec.padded row) j) as [p Hp]; [lia|].
    exists p. split; [done|]. exact (Forall_lookup_1 _ _ _ _ Hpad Hp). }
  pose proof (Forall_lookup_1 _ _ _ _ HGrow HP0) as GP0.
  pose proof (Forall_lookup_1 _ _ _ _ HGrow HQ0) as GQ0.
  pose proof (Forall_lookup_1 _ _ _ _ HGrow HQ1) as GQ1. cbn in GP0, GQ0, GQ1.
  split.
  - destruct (padded_lookup_0 row P0 HP0) as [Hp0 Hp1].
    pose proof (padded_lookup_S row 1 P1 HP1) as Hp2.
    destruct (Hlk 3%nat ltac:(lia)) as (X & HX & _).
    pose proof (Hposes 0%nat k0 0 P0 P0 P1 X Hk0 Hp0 Hp1 Hp2 HX) as Hstart.
    rewrite (pose_vmuls _ _ _ _ _ _ _ _ weights_at_0) in Hstart.
    rewrite Hself, Hzero in Hstart by auto. exact Hstart.
  - destruct (Hlk (N - 2)%nat ltac:(lia)) as (X & HX & GX).
    pose proof (padded_lookup_S row (N - 2) Q0 HQ0) as Hq0.
    pose proof (padded_lookup_S row (N - 1) Q1 HQ1) as Hq1.
    rewrite <- Hrl in HQ1. pose proof (padded_lookup_last row Q1 HQ1) as Hq2.
    rewrite Hrl in Hq2.
    replace (S (N - 2)) with (N - 2 + 1)%nat in Hq0 by lia.
    replace (S (N - 1)) with (N - 2 + 2)%nat in Hq1 by lia.
    replace (N + 1)%nat with (N - 2 + 3)%nat in Hq2 by lia.
    pose proof (Hposes (N - 2)%nat k1 1 X Q0 Q1 Q1 Hk1 HX Hq0 Hq1 Hq2) as Hend.
    rewrite (pose_vmuls _ _ _ _ _ _ _ _ weights_at_1) in Hend.
    rewrite vmuls_1, Hexplog, Hself in Hend by auto. exact Hend.
Qed.
End bspline_curve.

(** *** The laws on the translations *)

Lemma translation_closed (g : BSpline.Pose) (v : vec) :
  Examples.is_translation (Examples.Mul_t g (Examples.Exp_t v)).
Proof. by repeat split. Qed.

Lemma is_translation_eq (p : BSpline.Pose) :
  Examples.is_translation p ->
  p = Examples.translation (BSpline.tx p) (BSpline.ty p) (BSpline.tz p).
Proof.
  destruct p as [x y z a b c d]. unfold Examples.is_translation. cbn.
  intros (-> & -> & -> & ->). reflexivity.
Qed.

Lemma translation_Exp_Log (a b : BSpline.Pose) :
  Examples.is_translation b ->
  Examples.Mul_t a (Examples.Exp_t (Examples.Log_t (Examples.Mul_t (Examples.Inv_t a) b)))
  = b.
Proof.
  intros Hb. rewrite (is_translation_eq b Hb) at 2.
  unfold Examples.Mul_t, Examples.Exp_t, Examples.Log_t, Examples.Inv_t,
    Examples.translation. cbn. f_equal; ring.
Qed.

Lemma nth_vmuls_0 (v : vec) (k : nat) : nth k (vmuls v 0) 0 = 0.
Proof.
  unfold vmuls. revert k. induction v as [|a v IH]; intros [|k]; cbn; try done.
  ring.
Qed.

Lemma translation_Exp_zero (g : BSpline.Pose) (v : vec) :
  Examples.is_translation g -> Examples.Mul_t g (Examples.Exp_t (vmuls v 0)) = g.
Proof.
  intros Hg. rewrite (is_translation_eq g Hg) at 2.
  unfold Examples.Mul_t, Examples.Exp_t. rewrite !nth_vmuls_0.
  unfold Examples.translation. cbn. f_equal; ring.
Qed.

Lemma translation_Log_self (g a : BSpline.Pose) (w : Qc) :
  Examples.is_translation g ->
  Examples.Mul_t g (Examples.Exp_t
                      (vmuls (Examples.Log_t (Examples.Mul_t (Examples.Inv_t a) a)) w))
  = g.
Proof.
  intros Hg. rewrite (is_translation_eq g Hg) at 2.
  unfold Examples.Mul_t, Examples.Exp_t, Examples.Log_t, Examples.Inv_t,
    Examples.translation, vmuls. cbn. f_equal; ring.
Qed.

Lemma BSplineSE3_constant_witness :
  exists out,
    BSpline.BSplineSE3 Examples.Inv_t Examples.Mul_t Examples.Log_t Examples.Exp_t
      Examples.still_poses Examples.time_two = Ok out /\
    length out = 1%nat /\
    Forall (fun orow =>
              length orow = ((2 - 1) * 2)%nat /\
              Forall (fun T => T = Examples.translation 1 (Examples.q 2 1) (Examples.q 3 1))
                     orow) out.
Proof.
  apply (BSplineSE3_constant Examples.Inv_t Examples.Mul_t Examples.Log_t Examples.Exp_t
           Examples.still_poses Examples.time_two
           (Examples.translation 1 (Examples.q 2 1) (Examples.q 3 1))).
  - split; [reflexivity|]. repeat constructor.
  - reflexivity.
  - reflexivity.
  - reflexivity.
  - simpl. lia.
  - simpl. lia.
  - vm_compute. reflexivity.
  - repeat constructor.
  - intros w. apply translation_Log_self. by repeat split.
Defined.

Lemma BSplineSE3_continuous_witness :
  exists out,
    BSpline.BSplineSE3 Examples.Inv_t Examples.Mul_t Examples.Log_t Examples.Exp_t
      Examples.three_poses Examples.time_unit = Ok out /\
    forall b orow i, out !! b = Some orow -> (i + 2 < 3)%nat ->
      exists T, orow !! (i * 3 + 2)%nat = Some T /\
                orow !! ((i + 1) * 3 + 0)%nat = Some T.
Proof.
  apply (BSplineSE3_continuous Examples.Inv_t Examples.Mul_t Examples.Log_t
           Examples.Exp_t Examples.is_translation Examples.three_poses
           Examples.time_unit 0 2).
  - split; [reflexivity|]. repeat constructor.
  - reflexivity.
  - vm_compute. reflexivity.
  - reflexivity.
  - reflexivity.
  - simpl. lia.
  - reflexivity.
  - reflexivity.
  - repeat constructor.
  - intros g v _. apply translation_closed.
  - intros a b _ Hb. by apply translation_Exp_Log.
  - intros g v Hg. by apply translation_Exp_zero.
Defined.

Lemma BSplineSE3_endpoints_witness :
  exists out,
    BSpline.BSplineSE3 Examples.Inv_t Examples.Mul_t Examples.Log_t Examples.Exp_t
      Examples.three_poses Examples.time_unit = Ok out /\
    forall b row orow P0 P1 Q0 Q1,
      BSpline.rows Examples.three_poses !! b = Some row -> out !! b = Some orow ->
      row !! 0%nat = Some P0 -> row !! 1%nat = Some P1 ->
      row !! (3 - 2)%nat = Some Q0 -> row !! (3 - 1)%nat = Some Q1 ->
      orow !! 0%nat
      = Some (Examples.Mul_t P0
                (Examples.Exp_t
                   (vmuls (Examples.Log_t (Examples.Mul_t (Examples.Inv_t P0) P1))
                          (Qc_of_Z 1 / Qc_of_Z 6)))) /\
      orow !! ((3 - 2) * 3 + 2)%nat
      = Some (Examples.Mul_t Q0
                (Examples.Exp_t
                   (vmuls (Examples.Log_t (Examples.Mul_t (Examples.Inv_t Q0) Q1))
                          (Qc_of_Z 5 / Qc_of_Z 6)))).
Proof.
  apply (BSplineSE3_endpoints Examples.Inv_t Examples.Mul_t Examples.Log_t
           Examples.Exp_t Examples.is_translation Examples.three_poses
           Examples.time_unit 0 2).
  - split; [reflexivity|]. repeat constructor.
  - reflexivity.
  - vm_compute. reflexivity.
  - reflexivity.
  - reflexivity.
  - simpl. lia.
  - reflexivity.
  - reflexivity.
  - repeat constructor.
  - intros g v _. apply translation_closed.
  - intros a b _ Hb. by apply translation_Exp_Log.
  - intros g v Hg. by apply translation_Exp_zero.
  - intros g a w Hg _. by apply translation_Log_self.
Defined.

(** ** The parameters that a step reaches *)

Lemma kept_at_refl i s : kept_at i s s.
Proof. done. Qed.

Lemma kept_at_trans i s1 s2 s3 : kept_at i s1 s2 -> kept_at i s2 s3 -> kept_at i s1 s3.
Proof. unfold kept_at. congruence. Qed.

(** Sequencing, knowing the value and the store that the first computation
    hands over. *)
Lemma related_bind (R : Optim.Store -> Optim.Store -> Prop) {A B}
    (m : Optim.M A) (f : A -> Optim.M B) (s : Optim.Store) :
  (forall s1 s2 s3, R s1 s2 -> R s2 s3 -> R s1 s3) ->
  R s (fst (Optim.run m s)) ->
  (forall s' a, Optim.run m s = (s', Ok a) -> R s' (fst (Optim.run (f a) s'))) ->
  R s (fst (Optim.run (m ≫= f) s)).
Proof.
  intros Htrans Hm Hf. rewrite run_bind.
  destruct (Optim.run m s) as [s' [a|e]] eqn:Hrun; cbn [fst] in *; [|exact Hm].
  eapply Htrans; [exact Hm|]. by apply Hf.
Qed.

Lemma kept_at_add_ (i j : nat) (d : list Qc) : i <> j -> relates (kept_at i) (Optim.add_ j d).
Proof.
  intros Hij s. unfold kept_at.
  unfold Optim.add_, Optim.deref, mbind, Optim.M_bind, mret, Optim.M_ret,
    Optim.get, Optim.lift, index.
  unfold Optim.Store in *.
  cbn beta iota delta [Optim.run fst].
  destruct (s !! j) as [p|] eqn:Hp; [|done].
  cbn beta iota delta [Optim.run fst].
  case_bool_decide; [|done].
  cbn beta iota delta [Optim.run fst].
  by rewrite list_lookup_insert_ne.
Qed.

(** [zip(params, D)] stops at the shorter list: the update reaches the
    first [len(D)] parameters of the group only. *)
Lemma kept_at_update (i : nat) (params : list nat) (D : list (list Qc)) :
  i ∉ take (length D) params -> relates (kept_at i) (Optim.update params D).
Proof.
  unfold Optim.update. revert D. induction params as [|j params IH]; intros D Hi.
  - cbn. apply relates_ret. apply kept_at_refl.
  - destruct D as [|d D]; [cbn; apply relates_ret; apply kept_at_refl|].
    cbn [length take] in Hi. apply not_elem_of_cons in Hi as [Hij Hi].
    cbn [zip zip_with Optim.for_].
    apply relates_bind; [apply kept_at_trans| |].
    + apply relates_bind; [apply kept_at_trans| |].
      * apply relates_deref; [apply kept_at_refl|apply kept_at_trans].
      * intros p. destruct (Optim.requires_grad p).
        -- by apply kept_at_add_.
        -- apply relates_ret. apply kept_at_refl.
    + intros _. by apply IH.
Qed.

Lemma length_chunks (D : list Qc) (numels : list nat) :
  length (Optim.chunks D numels) = length numels.
Proof. revert D. induction numels as [|n r IH]; intros D; cbn; [done|]. by rewrite IH. Qed.

Lemma kept_at_split_update (i n : nat) (X : list Qc) (numels : list nat) (s : Optim.Store) :
  (length numels <= i)%nat ->
  kept_at i s (fst (Optim.run (D ← Optim.lift (Optim.split X numels);
                               Optim.update (seq 0 n) D) s)).
Proof.
  intros Hi. rewrite run_bind. cbn [Optim.run Optim.lift]. unfold Optim.split.
  case_bool_decide; [|done].
  apply kept_at_update. rewrite length_chunks. intros Hin.
  apply elem_of_take in Hin as (k & Hk & Hlt).
  apply lookup_seq in Hk as [-> _]. lia.
Qed.

Lemma run_trainable_numels_any (s : Optim.Store) :
  Optim.run (Optim.trainable_numels (seq 0 (length s))) s
  = (s, Ok (map Optim.numel (filter (fun p => Optim.requires_grad p = true) s))).
Proof.
  unfold Optim.trainable_numels. rewrite run_bind. cbn [Optim.run Optim.get].
  rewrite run_bind. cbn [Optim.run Optim.lift].
  pose proof (mapR_index_seq [] s) as Hm. cbn [app length] in Hm.
  unfold Optim.Store in *. by rewrite Hm.
Qed.

Section reach.
Variable Tensor : Type.
Variable tsub : Tensor -> Tensor -> Result Tensor.
Variable flat : Tensor -> list Qc.
Variable unbind : Tensor -> Result (list Tensor).
Variable Inputs : Type.
Variable model : Optim.Store -> Inputs -> Optim.Value Tensor.
Variable modjac : Optim.Store -> Inputs -> Optim.Matrix.
Variable pinverse : Optim.Matrix -> Optim.Matrix.
Variable cholesky : Optim.Matrix -> option Optim.Matrix.
Variable cholesky_solve : Optim.Matrix -> Optim.Matrix -> Optim.Matrix.
Variable sqrt : Qc -> Qc.

(** A step over the one group of all the parameters, around the body of
    its loop. *)
Lemma kept_at_around (i : nat) (s : Optim.Store) (inputs : Inputs)
    (targets : option (Optim.Value Tensor)) (body : list Qc -> Optim.M unit) :
  (forall E, kept_at i s (fst (Optim.run (body E) s))) ->
  kept_at i s
    (fst (Optim.run
            (E ← Optim._residual Tensor tsub flat unbind Inputs model inputs targets;
             _ ← (_ ← body E; mret tt);
             E' ← Optim._residual Tensor tsub flat unbind Inputs model inputs targets;
             mret (Optim.norm sqrt E')) s)).
Proof.
  intros Hbody.
  pose proof (relates_residual (kept_at i) (kept_at_refl i) (kept_at_trans i)
                Tensor tsub flat unbind Inputs model) as Hres.
  apply related_bind; [apply kept_at_trans|apply Hres|].
  intros s' E HE.
  assert (s' = s) as ->.
  { pose proof (run_residual_store Tensor tsub flat unbind Inputs model inputs targets s) as H.
    by rewrite HE in H. }
  apply related_bind; [apply kept_at_trans| |].
  - apply related_bind; [apply kept_at_trans|apply Hbody|]. intros s' _ _. done.
  - intros s' _ _.
    apply (relates_bind (kept_at i) (kept_at_trans i)); [apply Hres|].
    intros E'. apply relates_ret. apply kept_at_refl.
Qed.

(** X12. A group of [n] parameters of which [T] require gradients gets [T]
    slices of the update, and [zip] hands them to the first [T] parameters
    of the group: a step of the optimizer that a constructor builds never
    changes the parameter at a position [i >= T], whether it requires
    gradients or not, and whether the step returns or raises. *)
Theorem step_reaches_first (gn : Optim.GaussNewton) (lm : Optim.LevenbergMarquardt)
    (damping min max : Qc) (inputs : Inputs) (targets : option (Optim.Value Tensor))
    (s : Optim.Store) (i : nat) :
  Optim.run Optim.GaussNewton_init s = (s, Ok gn) ->
  Optim.run (Optim.LevenbergMarquardt_init damping min max) s = (s, Ok lm) ->
  (length (filter (fun p => Optim.requires_grad p = true) s) <= i)%nat ->
  fst (Optim.run (Optim.GaussNewton_step Tensor tsub flat unbind Inputs model modjac
                    pinverse sqrt gn inputs targets) s) !! i = s !! i /\
  fst (Optim.run (Optim.LevenbergMarquardt_step Tensor tsub flat unbind Inputs model
                    modjac cholesky cholesky_solve sqrt lm inputs targets) s) !! i
  = s !! i.
Proof.
  intros Hgn Hlm Hi.
  unfold Optim.GaussNewton_init in Hgn. rewrite run_bind in Hgn.
  cbn [Optim.run Optim.get] in Hgn.
  destruct (bool_decide (length s = 0%nat)); [discriminate|].
  injection Hgn as <-.
  unfold Optim.LevenbergMarquardt_init in Hlm. rewrite run_bind in Hlm.
  cbn [Optim.run Optim.lift] in Hlm.
  destruct (py_assert _ _) in Hlm; [|discriminate].
  rewrite run_bind in Hlm. cbn [Optim.run Optim.get] in Hlm.
  destruct (bool_decide (length s = 0%nat)); [discriminate|].
  injection Hlm as <-.
  split.
  - unfold Optim.GaussNewton_step. cbn [Optim.gn_param_groups Optim.for_].
    apply (kept_at_around i s inputs targets (fun E =>
             numels ← Optim.trainable_numels (seq 0 (length s));
             s0 ← Optim.get;
             let J := modjac s0 inputs in
             JtJ ← Optim.lift (Optim.matmul (Optim.transpose J) J);
             JtE ← Optim.lift (Optim.matmul (Optim.transpose J) (Optim.column E));
             D ← Optim.lift (Optim.matmul (pinverse JtJ) JtE);
             D ← Optim.lift (Optim.split (Optim.column0 D) numels);
             Optim.update (seq 0 (length s)) D)).
    intros E. rewrite run_bind, run_trainable_numels_any.
    rewrite run_bind. cbn [Optim.run Optim.get]. cbv zeta.
    rewrite run_bind. cbn [Optim.run Optim.lift].
    destruct (Optim.matmul _ _) as [JtJ|e]; [|done].
    rewrite run_bind. cbn [Optim.run Optim.lift].
    destruct (Optim.matmul _ _) as [JtE|e]; [|done].
    rewrite run_bind. cbn [Optim.run Optim.lift].
    destruct (Optim.matmul _ _) as [D|e]; [|done].
    apply kept_at_split_update. by rewrite length_map.
  - unfold Optim.LevenbergMarquardt_step.
    cbn [Optim.param_groups Optim.for_ Optim.params Optim.damping Optim.min Optim.max].
    apply (kept_at_around i s inputs targets (fun E =>
             numels ← Optim.trainable_numels (seq 0 (length s));
             s0 ← Optim.get;
             let J := modjac s0 inputs in
             A ← Optim.lift (Optim.matmul (Optim.transpose J) J);
             let A := Optim.diagonal_add_ A
                        (map (fun a => damping * Optim.clamp a min max)
                             (Optim.diagonal A)) in
             JtE ← Optim.lift (Optim.matmul (Optim.transpose J) (Optim.column E));
             L ← Optim.lift (match cholesky A with
                             | Some L => Ok L | None => Raise LinAlgError end);
             let D := cholesky_solve JtE L in
             D ← Optim.lift (Optim.split (Optim.column0 D) numels);
             Optim.update (seq 0 (length s)) D)).
    intros E. rewrite run_bind, run_trainable_numels_any.
    rewrite run_bind. cbn [Optim.run Optim.get]. cbv zeta.
    rewrite run_bind. cbn [Optim.run Optim.lift].
    destruct (Optim.matmul _ _) as [A|e]; [|done].
    rewrite run_bind. cbn [Optim.run Optim.lift].
    destruct (Optim.matmul _ _) as [JtE|e]; [|done].
    rewrite run_bind. cbn [Optim.run Optim.lift].
    destruct (cholesky _) as [L|]; [|done].
    apply kept_at_split_update. by rewrite length_map.
Qed.
End reach.

Lemma step_reaches_first_witness :
  fst (Optim.run (Optim.GaussNewton_step Examples.Tensor Examples.tsub_same
                    Examples.flat_id Examples.unbind_1d unit Examples.model_id
                    Examples.modjac_trainable Examples.pinverse_diag
                    Examples.rational_sqrt
                    {| Optim.gn_param_groups := [[0; 1]%nat] |} tt
                    (Some (Optim.Single [Examples.q 4 1])))
         Examples.store_frozen_first) !! 1%nat
  = Examples.store_frozen_first !! 1%nat /\
  fst (Optim.run (Optim.LevenbergMarquardt_step Examples.Tensor Examples.tsub_same
                    Examples.flat_id Examples.unbind_1d unit Examples.model_id
                    Examples.modjac_trainable Examples.cholesky_diag
                    Examples.cholesky_solve_diag Examples.rational_sqrt
                    {| Optim.param_groups :=
                         [ {| Optim.params := [0; 1]%nat; Optim.damping := Examples.q 3 1;
                              Optim.min := Examples.q 1 3;
                              Optim.max := Examples.q 100 1 |} ] |} tt
                    (Some (Optim.Single [Examples.q 4 1])))
         Examples.store_frozen_first) !! 1%nat
  = Examples.store_frozen_first !! 1%nat.
Proof.
  apply (step_reaches_first Examples.Tensor Examples.tsub_same Examples.flat_id
           Examples.unbind_1d unit Examples.model_id Examples.modjac_trainable
           Examples.pinverse_diag Examples.cholesky_diag Examples.cholesky_solve_diag
           Examples.rational_sqrt
           {| Optim.gn_param_groups := [[0; 1]%nat] |}
           {| Optim.param_groups :=
                [ {| Optim.params := [0; 1]%nat; Optim.damping := Examples.q 3 1;
                     Optim.min := Examples.q 1 3; Optim.max := Examples.q 100 1 |} ] |}
           (Examples.q 3 1) (Examples.q 1 3) (Examples.q 100 1) tt
           (Some (Optim.Single [Examples.q 4 1])) Examples.store_frozen_first 1).
  - reflexivity.
  - reflexivity.
  - vm_compute. lia.
Defined.

(** ** The matrix that Levenberg-Marquardt factors *)

Lemma sumn_S (n : nat) (f : nat -> Qc) : Optim.sumn (S n) f = Optim.sumn n f + f n.
Proof.
  unfold Optim.sumn. rewrite seq_S, foldr_app. cbn [foldr plus].
  generalize (seq 0 n). intros l. induction l as [|k l IH]; cbn [foldr]; [ring|].
  rewrite IH. ring.
Qed.

Lemma sumn_0 (f : nat -> Qc) : Optim.sumn 0 f = 0.
Proof. reflexivity. Qed.

Lemma sumn_ext (n : nat) (f g : nat -> Qc) :
  (forall k, (k < n)%nat -> f k = g k) -> Optim.sumn n f = Optim.sumn n g.
Proof.
  induction n as [|n IH]; intros H; [done|].
  rewrite !sumn_S, IH, H by (intros; auto with lia). done.
Qed.

Lemma sumn_add (n : nat) (f g : nat -> Qc) :
  Optim.sumn n (fun k => f k + g k) = Optim.sumn n f + Optim.sumn n g.
Proof. induction n as [|n IH]; [by rewrite !sumn_0|]. rewrite !sumn_S, IH. ring. Qed.

Lemma sumn_scal_l (n : nat) (c : Qc) (f : nat -> Qc) :
  Optim.sumn n (fun k => c * f k) = c * Optim.sumn n f.
Proof.
  induction n as [|n IH]; [rewrite !sumn_0; ring|]. rewrite !sumn_S, IH. ring.
Qed.

Lemma sumn_scal_r (n : nat) (c : Qc) (f : nat -> Qc) :
  Optim.sumn n (fun k => f k * c) = Optim.sumn n f * c.
Proof.
  induction n as [|n IH]; [rewrite !sumn_0; ring|]. rewrite !sumn_S, IH. ring.
Qed.

Lemma sumn_exchange (n m : nat) (f : nat -> nat -> Qc) :
  Optim.sumn n (fun i => Optim.sumn m (fun j => f i j))
  = Optim.sumn m (fun j => Optim.sumn n (fun i => f i j)).
Proof.
  induction n as [|n IH].
  - rewrite sumn_0. symmetry. by apply sumn_zero.
  - rewrite sumn_S, IH, <- sumn_add. apply sumn_ext. intros j _. by rewrite sumn_S.
Qed.



(** The one diagonal term of a row. *)
Lemma sumn_diagonal (n i : nat) (g : nat -> Qc) :
  (i < n)%nat ->
  Optim.sumn n (fun j => if bool_decide (i = j) then g j else 0) = g i.
Proof.
  induction n as [|n IH]; intros Hi; [lia|].
  rewrite sumn_S. destruct (decide (i = n)) as [->|Hne].
  - rewrite bool_decide_eq_true_2 by done.
    rewrite (sumn_ext n _ (fun _ => 0)).
    + rewrite (sumn_zero n) by done. ring.
    + intros k Hk. by rewrite bool_decide_eq_false_2 by lia.
  - rewrite bool_decide_eq_false_2 by done. rewrite IH by lia. ring.
Qed.







(** ** The residual of tuples *)

Section residual.
Variable Tensor : Type.
Variable tsub : Tensor -> Tensor -> Result Tensor.
Variable flat : Tensor -> list Qc.
Variable unbind : Tensor -> Result (list Tensor).
Variable Inputs : Type.
Variable model : Optim.Store -> Inputs -> Optim.Value Tensor.

(** X14. [zip(targets, outputs)] stops at the shorter tuple without a check of
    the lengths: when the model returns a tuple, the targets beyond the
    number of outputs are ignored, and an empty tuple on either side leaves
    [torch.cat] with nothing to concatenate. *)
Theorem residual_tuple_truncates (inputs : Inputs) (ts os : list Tensor)
    (s : Optim.Store) :
  model s inputs = Optim.Tuple os ->
  Optim.run (Optim._residual Tensor tsub flat unbind Inputs model inputs
               (Some (Optim.Tuple ts))) s
  = Optim.run (Optim._residual Tensor tsub flat unbind Inputs model inputs
                 (Some (Optim.Tuple (take (length os) ts)))) s /\
  (ts = [] \/ os = [] ->
   Optim.run (Optim._residual Tensor tsub flat unbind Inputs model inputs
                (Some (Optim.Tuple ts))) s
   = (s, Raise RuntimeError)).
Proof.
  intros Hm. unfold Optim._residual.
  rewrite !run_bind. cbn [Optim.run Optim.get]. rewrite Hm.
  rewrite !run_bind. cbn [Optim.run Optim.lift Optim.iterate].
  split.
  - by rewrite (zip_with_take_l pair ts os).
  - intros [-> | ->]; [done|]. by rewrite (zip_with_nil_r pair ts).
Qed.
End residual.

Lemma residual_tuple_truncates_witness :
  Optim.run (Optim._residual Examples.Tensor Examples.tsub_same Examples.flat_id
               Examples.unbind_1d unit
               (fun _ _ => Optim.Tuple [[Examples.q 1 1]; [Examples.q 2 1]]) tt
               (Some (Optim.Tuple [[Examples.q 5 1]; [Examples.q 5 1]; [Examples.q 9 1]])))
            Examples.store_trainable
  = Optim.run (Optim._residual Examples.Tensor Examples.tsub_same Examples.flat_id
                 Examples.unbind_1d unit
                 (fun _ _ => Optim.Tuple [[Examples.q 1 1]; [Examples.q 2 1]]) tt
                 (Some (Optim.Tuple
                          (take (length [[Examples.q 1 1]; [Examples.q 2 1]])
                                [[Examples.q 5 1]; [Examples.q 5 1]; [Examples.q 9 1]]))))
              Examples.store_trainable /\
  Optim.run (Optim._residual Examples.Tensor Examples.tsub_same Examples.flat_id
               Examples.unbind_1d unit
               (fun _ _ => Optim.Tuple [[Examples.q 1 1]; [Examples.q 2 1]]) tt
               (Some (Optim.Tuple [])))
            Examples.store_trainable
  = (Examples.store_trainable, Raise RuntimeError).
Proof.
  split.
  - apply (residual_tuple_truncates Examples.Tensor Examples.tsub_same Examples.flat_id
             Examples.unbind_1d unit
             (fun _ _ => Optim.Tuple [[Examples.q 1 1]; [Examples.q 2 1]]) tt
             [[Examples.q 5 1]; [Examples.q 5 1]; [Examples.q 9 1]]
             [[Examples.q 1 1]; [Examples.q 2 1]] Examples.store_trainable).
    reflexivity.
  - apply (residual_tuple_truncates Examples.Tensor Examples.tsub_same Examples.flat_id
             Examples.unbind_1d unit
             (fun _ _ => Optim.Tuple [[Examples.q 1 1]; [Examples.q 2 1]]) tt
             [] [[Examples.q 1 1]; [Examples.q 2 1]] Examples.store_trainable).
    + reflexivity.
    + left. reflexivity.
Defined.

(** ** Gauss-Newton on an affine model *)

Lemma length_flat_params (s : Optim.Store) :
  Optim.wf_store s -> length (flat_params s) = total_numel s.
Proof.
  unfold flat_params, total_numel. induction 1 as [|p s Hp _ IH]; [done|].
  cbn [map concat foldr]. rewrite length_app, IH, Hp. done.
Qed.

Lemma add_slices_layout (s : Optim.Store) (delta : list Qc) :
  Forall (fun p => Optim.requires_grad p = true) s -> Optim.wf_store s ->
  (total_numel s <= length delta)%nat ->
  same_layout s (OptimSpec.add_slices s delta).
Proof.
  intros Hs Hwf. revert delta.
  induction Hs as [|p s Hp Hs IH]; intros delta Hlen; [by split; [|split]|].
  apply Forall_cons_1 in Hwf as [Hpw Hwf].
  unfold total_numel in Hlen. cbn [map foldr] in Hlen. fold (total_numel s) in Hlen.
  cbn [OptimSpec.add_slices]. rewrite Hp.
  destruct (IH Hwf (drop (Optim.numel p) delta)) as (Hsh & Hfl & Hw).
  { rewrite length_drop. lia. }
  split; [|split].
  - cbn [map Optim.shape]. by rewrite Hsh.
  - cbn [map Optim.requires_grad]. by rewrite Hfl, Hp.
  - intros _. constructor; [|by apply Hw].
    unfold Optim.numel in *. cbn. rewrite length_zip_with, length_take. lia.
Qed.

Lemma flat_params_add_slices (s : Optim.Store) (delta : list Qc) :
  Forall (fun p => Optim.requires_grad p = true) s -> Optim.wf_store s ->
  (total_numel s <= length delta)%nat ->
  flat_params (OptimSpec.add_slices s delta) = zip_with Qcplus (flat_params s) delta.
Proof.
  intros Hs Hwf. revert delta.
  induction Hs as [|p s Hp Hs IH]; intros delta Hlen; [done|].
  apply Forall_cons_1 in Hwf as [Hpw Hwf].
  unfold total_numel in Hlen. cbn [map foldr] in Hlen. fold (total_numel s) in Hlen.
  cbn [OptimSpec.add_slices]. rewrite Hp. unfold flat_params in *.
  cbn [map concat Optim.data]. rewrite IH by (done || rewrite length_drop; lia).
  rewrite <- (take_drop (Optim.numel p) delta) at 3.
  rewrite zip_with_app; [done|]. rewrite length_take. lia.
Qed.

Section affine.
Variable Tensor : Type.
Variable tsub : Tensor -> Tensor -> Result Tensor.
Variable flat : Tensor -> list Qc.
Variable unbind : Tensor -> Result (list Tensor).
Variable Inputs : Type.
Variable model : Optim.Store -> Inputs -> Optim.Value Tensor.
Variable modjac : Optim.Store -> Inputs -> Optim.Matrix.
Variable pinverse : Optim.Matrix -> Optim.Matrix.
Variable sqrt : Qc -> Qc.

Lemma run_residual_none (inputs : Inputs) (s : Optim.Store) (o : Tensor) :
  model s inputs = Optim.Single o ->
  Optim.run (Optim._residual Tensor tsub flat unbind Inputs model inputs None) s
  = (s, Ok (map Qcopp (flat o))).
Proof.
  intros Hm. unfold Optim._residual. rewrite run_bind. cbn [Optim.run Optim.get].
  by rewrite Hm.
Qed.

(** X15. One step solves a linear least-squares problem: for a model that is
    affine in its parameters, [f(θ) = J θ - b], whose Jacobian the provider
    returns, and a backend whose [pinverse] inverts [JᵀJ], the step with no
    targets moves all-trainable parameters to a point where the residual
    [E'] satisfies the normal equations [Jᵀ E' = 0], and returns its norm. *)
Theorem GaussNewton_step_affine (inputs : Inputs) (s : Optim.Store)
    (J P : Optim.Matrix) (b : list Qc) :
  s <> [] ->
  Forall (fun p => Optim.requires_grad p = true) s -> Optim.wf_store s ->
  Optim.ncols J = total_numel s ->
  (forall s', same_layout s s' ->
     exists o, model s' inputs = Optim.Single o /\
       flat o = map (fun k => Optim.sumn (Optim.ncols J)
                                (fun j => Optim.entry J k j * nth j (flat_params s') 0)
                              - nth k b 0)
                    (seq 0 (Optim.nrows J))) ->
  modjac s inputs = J ->
  pinverse (OptimSpec.gram J) = P ->
  Optim.nrows P = Optim.ncols J -> Optim.ncols P = Optim.ncols J ->
  (forall i l, (i < Optim.ncols J)%nat -> (l < Optim.ncols J)%nat ->
     Optim.sumn (Optim.ncols J)
       (fun j => Optim.entry (OptimSpec.gram J) i j * Optim.entry P j l)
     = if bool_decide (i = l) then 1 else 0) ->
  exists self s' E',
    Optim.run Optim.GaussNewton_init s = (s, Ok self) /\
    Optim.run (Optim.GaussNewton_step Tensor tsub flat unbind Inputs model modjac
                 pinverse sqrt self inputs None) s
    = (s', Ok (Optim.norm sqrt E')) /\
    Optim.run (Optim._residual Tensor tsub flat unbind Inputs model inputs None) s'
    = (s', Ok E') /\
    forall i, (i < Optim.ncols J)%nat ->
      Optim.sumn (Optim.nrows J) (fun k => Optim.entry J k i * nth k E' 0) = 0.
Proof.
  intros Hne Hs Hwf Hcols Hmodel HJ HP HPr HPc Hinv.
  set (n := Optim.ncols J) in *. set (m := Optim.nrows J) in *.
  set (out := fun th : list Qc =>
         map (fun k => Optim.sumn n (fun j => Optim.entry J k j * nth j th 0) - nth k b 0)
             (seq 0 m)).
  destruct (Hmodel s) as (o & Ho & Hfo); [by split; [|split]|].
  pose proof (run_residual_none inputs s o Ho) as HE. rewrite Hfo in HE.
  fold (out (flat_params s)) in HE.
  set (E := map Qcopp (out (flat_params s))) in *.
  assert (HEl : length E = m) by (unfold E, out; by rewrite !length_map, length_seq).
  destruct (GaussNewton_step_all_trainable Tensor tsub flat unbind Inputs model modjac
              pinverse sqrt inputs None s E Hne Hs HE)
    as (self & Hinit & Hstep); try (rewrite HJ; try rewrite HP; done).
  rewrite HJ in Hstep.
  set (delta := OptimSpec.gn_delta pinverse J E) in *.
  assert (Hdl : length delta = n).
  { unfold delta, OptimSpec.gn_delta. by rewrite length_map, length_seq. }
  set (s' := OptimSpec.add_slices s delta) in *.
  assert (Hlay : same_layout s s') by (apply add_slices_layout; (done || lia)).
  destruct (Hmodel s' Hlay) as (o' & Ho' & Hfo').
  pose proof (run_residual_none inputs s' o' Ho') as HE'. rewrite Hfo' in HE'.
  fold (out (flat_params s')) in HE'.
  exists self, s', (map Qcopp (out (flat_params s'))).
  split; [exact Hinit|]. split.
  { rewrite Hstep, run_bind, HE'. reflexivity. }
  split; [exact HE'|].
  intros i Hi.
  (* the entries of the two residuals *)
  assert (Hth : length (flat_params s) = n) by (rewrite length_flat_params; done).
  assert (Hnth : forall th k, (k < m)%nat ->
            nth k (map Qcopp (out th)) 0
            = nth k b 0 - Optim.sumn n (fun j => Optim.entry J k j * nth j th 0)).
  { intros th k Hk. unfold out. rewrite map_map, (nth_map_seq _ _ k) by done. ring. }
  assert (Hd : forall j, (j < n)%nat ->
            nth j delta 0
            = Optim.sumn n (fun l => Optim.entry P j l
                                     * Optim.entry (OptimSpec.rhs J E) l 0%nat)).
  { intros j Hj. unfold delta, OptimSpec.gn_delta. fold n.
    rewrite (nth_map_seq _ _ j) by done. by rewrite HP. }
  assert (HE'k : forall k, (k < m)%nat ->
            nth k (map Qcopp (out (flat_params s'))) 0
            = nth k E 0 + - Optim.sumn n (fun j => Optim.entry J k j * nth j delta 0)).
  { intros k Hk. unfold E. rewrite !Hnth by done.
    unfold s'. rewrite flat_params_add_slices by (done || lia).
    rewrite (sumn_ext n _ (fun j => Optim.entry J k j * nth j (flat_params s) 0
                                    + Optim.entry J k j * nth j delta 0)).
    - rewrite sumn_add. ring.
    - intros j Hj. rewrite nth_zip_with_Qc by lia. ring. }
  rewrite (sumn_ext m _ (fun k => Optim.entry J k i * nth k E 0
             + - (1) * Optim.sumn n (fun j => Optim.entry J k i
                                              * (Optim.entry J k j * nth j delta 0)))).
  2:{ intros k Hk. rewrite HE'k by done. rewrite sumn_scal_l. ring. }
  rewrite sumn_add, sumn_scal_l, sumn_exchange.
  rewrite (sumn_ext n _ (fun j => Optim.entry (OptimSpec.gram J) i j * nth j delta 0)).
  2:{ intros j Hj. cbn [OptimSpec.gram Optim.entry]. fold m. rewrite <- sumn_scal_r.
      apply sumn_ext. intros k _. ring. }
  rewrite (sumn_ext n _ (fun j => Optim.sumn n (fun l =>
             Optim.entry (OptimSpec.gram J) i j
             * (Optim.entry P j l * Optim.entry (OptimSpec.rhs J E) l 0%nat)))).
  2:{ intros j Hj. rewrite Hd by done. by rewrite sumn_scal_l. }
  rewrite sumn_exchange.
  rewrite (sumn_ext n _ (fun l => if bool_decide (i = l)
                                  then Optim.entry (OptimSpec.rhs J E) l 0%nat else 0)).
  2:{ intros l Hl.
      rewrite (sumn_ext n _ (fun j => Optim.entry (OptimSpec.gram J) i j * Optim.entry P j l
                                      * Optim.entry (OptimSpec.rhs J E) l 0%nat))
        by (intros; ring).
      rewrite sumn_scal_r, Hinv by done. case_bool_decide; ring. }
  rewrite sumn_diagonal by done.
  cbn [OptimSpec.rhs Optim.entry]. fold m. ring.
Qed.
End affine.

(** The identity model on one trainable parameter of two elements is
    affine, with the identity as its Jacobian. *)
Lemma model_id_affine (s' : Optim.Store) :
  same_layout Examples.store_trainable s' ->
  exists o, Examples.model_id s' tt = Optim.Single o /\
    Examples.flat_id o
    = map (fun k => Optim.sumn (Optim.ncols (Examples.identity 2))
                      (fun j => Optim.entry (Examples.identity 2) k j
                                * nth j (flat_params s') 0)
                    - nth k [] 0)
          (seq 0 (Optim.nrows (Examples.identity 2))).
Proof.
  intros (Hsh & Hfl & Hwf).
  destruct s' as [|[sh d g] [|? ?]]; try discriminate.
  cbn in Hsh, Hfl. injection Hsh as ->. injection Hfl as ->.
  assert (Hlen : length d = 2%nat).
  { assert (Hw : Optim.wf_store Examples.store_trainable) by (repeat constructor).
    apply Hwf in Hw. by apply Forall_cons_1 in Hw as [Hw _]. }
  destruct d as [|a [|c [|? ?]]]; try discriminate.
  eexists. split; [reflexivity|].
  unfold Examples.flat_id, flat_params. cbn. rewrite decide_True by done.
  cbn [map concat Optim.data app].
  rewrite !(bool_decide_eq_true_2 (0 = 0)%nat), !(bool_decide_eq_true_2 (1 = 1)%nat),
    !(bool_decide_eq_false_2 (0 = 1)%nat), !(bool_decide_eq_false_2 (1 = 0)%nat) by done.
  f_equal; [ring|f_equal; ring].
Qed.

Lemma GaussNewton_step_affine_witness :
  exists self s' E',
    Optim.run Optim.GaussNewton_init Examples.store_trainable
    = (Examples.store_trainable, Ok self) /\
    Optim.run (Optim.GaussNewton_step Examples.Tensor Examples.tsub_same Examples.flat_id
                 Examples.unbind_1d unit Examples.model_id Examples.modjac_trainable
                 Examples.pinverse_diag Examples.rational_sqrt self tt None)
              Examples.store_trainable
    = (s', Ok (Optim.norm Examples.rational_sqrt E')) /\
    Optim.run (Optim._residual Examples.Tensor Examples.tsub_same Examples.flat_id
                 Examples.unbind_1d unit Examples.model_id tt None) s'
    = (s', Ok E') /\
    forall i, (i < Optim.ncols (Examples.identity 2))%nat ->
      Optim.sumn (Optim.nrows (Examples.identity 2))
        (fun k => Optim.entry (Examples.identity 2) k i * nth k E' 0) = 0.
Proof.
  apply (GaussNewton_step_affine Examples.Tensor Examples.tsub_same Examples.flat_id
           Examples.unbind_1d unit Examples.model_id Examples.modjac_trainable
           Examples.pinverse_diag Examples.rational_sqrt tt Examples.store_trainable
           (Examples.identity 2)
           (Examples.pinverse_diag (OptimSpec.gram (Examples.identity 2))) []).
  - discriminate.
  - repeat constructor.
  - repeat constructor.
  - reflexivity.
  - apply model_id_affine.
  - reflexivity.
  - reflexivity.
  - reflexivity.
  - reflexivity.
  - intros i l Hi Hl. simpl in Hi, Hl.
    destruct i as [|[|i]]; [| |lia]; (destruct l as [|[|l]]; [| |lia]); qc_decide.
Defined.

(** ** Batches *)



Section bspline_batch.
Variable Inv : BSpline.Pose -> BSpline.Pose.
Variable Mul : BSpline.Pose -> BSpline.Pose -> BSpline.Pose.
Variable Log : BSpline.Pose -> vec.
Variable Exp : vec -> BSpline.Pose.

(** X17. The batch rows of poses are interpolated independently as well: the
    output row of a batch row is what [BSplineSE3] returns on that row
    alone, with the same time tensor. *)
Theorem BSplineSE3_batch (input_poses : BSpline.Poses) (time : BSpline.Time) :
  BSpline.wf_poses input_poses -> BSpline.wf_time time ->
  BSpline.is_SE3 input_poses = true ->
  BSpline.shape0 time = 1%nat -> BSpline.shape1 time = 1%nat ->
  (2 <= BSpline.point_num input_poses)%nat -> (1 <= BSpline.shape2 time)%nat ->
  exists out,
    BSpline.BSplineSE3 Inv Mul Log Exp input_poses time = Ok out /\
    length out = BSpline.batch_size input_poses /\
    forall b row, BSpline.rows input_poses !! b = Some row ->
      exists orow, out !! b = Some orow /\
        BSpline.BSplineSE3 Inv Mul Log Exp
          {| BSpline.batch_size := 1;
             BSpline.point_num := BSpline.point_num input_poses;
             BSpline.rows := [row] |} time = Ok [orow].
Proof.
  intros Hwf Hwt HSE3 Hs0 Hs1 HN HK.
  destruct (BSplineSE3_poses Inv Mul Log Exp input_poses time Hwf Hwt HSE3 Hs0 Hs1 HN HK)
    as (out & Hout & Houtl & Hrows).
  exists out. split; [exact Hout|]. split; [exact Houtl|]. intros b row Hrow.
  destruct (Hrows b row Hrow) as (Hpl & orow & Horow & Hol & Hposes).
  exists orow. split; [exact Horow|].
  destruct Hwf as [HB Hlen].
  set (single := {| BSpline.batch_size := 1;
                    BSpline.point_num := BSpline.point_num input_poses;
                    BSpline.rows := [row] |}).
  assert (Hwf1 : BSpline.wf_poses single).
  { split; [done|]. constructor; [|done]. exact (Forall_lookup_1 _ _ _ _ Hlen Hrow). }
  assert (HSE31 : BSpline.is_SE3 single = true).
  { unfold BSpline.is_SE3 in *. cbn [BSpline.rows single forallb].
    rewrite andb_true_r. rewrite forallb_forall in HSE3. apply HSE3.
    apply list_elem_of_In. by eapply list_elem_of_lookup_2. }
  destruct (BSplineSE3_poses Inv Mul Log Exp single time Hwf1 Hwt HSE31 Hs0 Hs1 HN HK)
    as (out1 & Hout1 & Hout1l & Hrows1).
  rewrite Hout1. f_equal. cbn in Hout1l.
  destruct out1 as [|orow1 [|? ?]]; try discriminate. f_equal.
  destruct (Hrows1 0%nat row eq_refl) as (_ & orow1' & Horow1 & Hol1 & Hposes1).
  injection Horow1 as <-. cbn [BSpline.point_num single] in Hol1, Hposes1.
  unfold BSpline.wf_time in Hwt. rewrite Hs0, Hs1 in Hwt.
  set (N := BSpline.point_num input_poses) in *.
  set (K := BSpline.shape2 time) in *.
  apply list_eq. intros n.
  destruct (decide (n < (N - 1) * K)%nat) as [Hn|Hn].
  - assert (Hi : (n / K < N - 1)%nat) by (apply Nat.Div0.div_lt_upper_bound; lia).
    assert (Hk : (n mod K < K)%nat) by (apply Nat.mod_upper_bound; lia).
    destruct (lookup_lt_is_Some_2 (BSpline.values time) (n mod K)) as [u Hu]; [lia|].
    destruct (lookup_lt_is_Some_2 (BSplineSpec.padded row) (n / K)) as [P0 HP0]; [lia|].
    destruct (lookup_lt_is_Some_2 (BSplineSpec.padded row) (n / K + 1)) as [P1 HP1]; [lia|].
    destruct (lookup_lt_is_Some_2 (BSplineSpec.padded row) (n / K + 2)) as [P2 HP2]; [lia|].
    destruct (lookup_lt_is_Some_2 (BSplineSpec.padded row) (n / K + 3)) as [P3 HP3]; [lia|].
    pose proof (Hposes _ _ _ _ _ _ _ Hu HP0 HP1 HP2 HP3) as H.
    pose proof (Hposes1 _ _ _ _ _ _ _ Hu HP0 HP1 HP2 HP3) as H1.
    replace (n / K * K + n mod K)%nat with n in H, H1
      by (rewrite (Nat.div_mod_eq n K) at 1; lia).
    congruence.
  - rewrite !(proj2 (lookup_ge_None _ _)) by lia. done.
Qed.
End bspline_batch.

Lemma BSplineSE3_batch_witness :
  exists out,
    BSpline.BSplineSE3 Examples.Inv_t Examples.Mul_t Examples.Log_t Examples.Exp_t
      Examples.two_rows Examples.time_unit = Ok out /\
    length out = 2%nat /\
    forall b row, BSpline.rows Examples.two_rows !! b = Some row ->
      exists orow, out !! b = Some orow /\
        BSpline.BSplineSE3 Examples.Inv_t Examples.Mul_t Examples.Log_t Examples.Exp_t
          {| BSpline.batch_size := 1; BSpline.point_num := 3; BSpline.rows := [row] |}
          Examples.time_unit = Ok [orow].
Proof.
  apply (BSplineSE3_batch Examples.Inv_t Examples.Mul_t Examples.Log_t Examples.Exp_t
           Examples.two_rows Examples.time_unit).
  - split; [reflexivity|]. repeat constructor.
  - reflexivity.
  - vm_compute. reflexivity.
  - reflexivity.
  - reflexivity.
  - simpl. lia.
  - simpl. lia.
Defined.
